(** * Change-of-variables transforms of pymc3/distributions/transforms.py

    The module builds Theano expressions; this development gives those
    expressions their value over the real numbers and, where the range of
    the binary64 format decides a property, their value in that range
    (definitions and lemmas with [f64] in their name).  A tensor is either a
    rank-0 value or a rank-1 vector.  An elementwise Theano operation is the
    map of the scalar operation over the entries.  The simplex transforms
    [SumTo1] and [StickBreaking] take rank-1 vectors, for which the index
    expression [(slice(None), ) + (None, ) * (x.ndim - 1)] is the full slice. *)

From Stdlib Require Import String Reals Lra Lia List Arith ZArith ClassicalEpsilon.
Import ListNotations.
Open Scope R_scope.

(** ** Tensors *)

Inductive tensor : Type :=
| scalar (r : R)
| vector (v : list R).

Definition tmap (f : R -> R) (t : tensor) : tensor :=
  match t with
  | scalar r => scalar (f r)
  | vector v => vector (map f v)
  end.

(** Every entry of the tensor satisfies [P]. *)
Definition tt_all (P : R -> Prop) (t : tensor) : Prop :=
  match t with
  | scalar r => P r
  | vector v => Forall P v
  end.

(** Entries in row-major order, their number, and the shape
    ([None] is the empty shape of a rank-0 tensor). *)
Definition tt_flatten (t : tensor) : list R :=
  match t with
  | scalar r => [r]
  | vector v => v
  end.

Definition tt_size (t : tensor) : nat := length (tt_flatten t).

Definition tt_shape (t : tensor) : option nat :=
  match t with
  | scalar _ => None
  | vector v => Some (length v)
  end.

(** [zipWith] pairs entries of two vectors; Theano refuses vectors of
    different lengths, and every use below is on vectors of equal length. *)
Fixpoint zipWith (f : R -> R -> R) (u v : list R) : list R :=
  match u, v with
  | a :: u', b :: v' => f a b :: zipWith f u' v'
  | _, _ => []
  end.

(** Broadcasting binary operation: a rank-0 operand is combined with every
    entry of the other one. *)
Definition tt_binop (f : R -> R -> R) (s t : tensor) : tensor :=
  match s, t with
  | scalar a, scalar b => scalar (f a b)
  | scalar a, vector v => vector (map (f a) v)
  | vector u, scalar b => vector (map (fun x => f x b) u)
  | vector u, vector v => vector (zipWith f u v)
  end.

Definition tt_add : tensor -> tensor -> tensor := tt_binop Rplus.

Definition tt_exp : tensor -> tensor := tmap exp.
Definition tt_log : tensor -> tensor := tmap ln.
Definition tt_abs_ : tensor -> tensor := tmap Rabs.

(** [tt.sum]: the sum of all entries. *)
Definition vsum (v : list R) : R := fold_right Rplus 0 v.
Definition tt_sum (t : tensor) : R := vsum (tt_flatten t).

(** [tt.nnet.sigmoid], [tt.log1p] and [tt.arctan2] on one entry.  [arctan2 y x]
    is the angle of the point [(x, y)], as in the C library. *)
Definition sigmoid (x : R) : R := 1 / (1 + exp (- x)).

Definition log1p (x : R) : R := ln (1 + x).

Definition arctan2 (y x : R) : R :=
  match total_order_T 0 x with
  | inleft (left _) => atan (y / x)
  | inleft (right _) =>
      match total_order_T 0 y with
      | inleft (left _) => PI / 2
      | inleft (right _) => 0
      | inright _ => - (PI / 2)
      end
  | inright _ =>
      if Rle_dec 0 y then atan (y / x) + PI else atan (y / x) - PI
  end.

(** ** The transform interface and the transformed distribution *)

(** [forward] may raise ([StickBreaking.forward] indexes the last entry of
    its argument), hence the optional result. *)
Record Transform (X Y : Type) : Type := mkTransform {
  name : string;
  forward : X -> option Y;
  backward : Y -> X;
  jacobian_det : Y -> tensor
}.
Arguments mkTransform {X Y}.
Arguments name {X Y}.
Arguments forward {X Y}.
Arguments backward {X Y}.
Arguments jacobian_det {X Y}.

Definition Transform_str {X Y : Type} (t : Transform X Y) : string :=
  (name t ++ " transform")%string.

Record Distribution (X : Type) : Type := mkDistribution {
  default : X;
  logp : X -> tensor
}.
Arguments mkDistribution {X}.
Arguments default {X}.
Arguments logp {X}.

Record TransformedDistribution (X Y : Type) : Type := mkTransformedDistribution {
  dist : Distribution X;
  transform_used : Transform X Y;
  testval : option Y
}.
Arguments mkTransformedDistribution {X Y}.
Arguments dist {X Y}.
Arguments transform_used {X Y}.
Arguments testval {X Y}.

Definition TransformedDistribution_init {X Y : Type}
    (d : Distribution X) (transform : Transform X Y) : TransformedDistribution X Y :=
  {| dist := d;
     transform_used := transform;
     testval := forward transform (default d) |}.

Definition TransformedDistribution_logp {X Y : Type}
    (self : TransformedDistribution X Y) (x : Y) : tensor :=
  tt_add (logp (dist self) (backward (transform_used self) x))
         (jacobian_det (transform_used self) x).

Definition Transform_apply {X Y : Type} (self : Transform X Y) (d : Distribution X)
  : TransformedDistribution X Y :=
  TransformedDistribution_init d self.

(** ** The default Jacobian of an elementwise transform *)

(** Entry [i] (in row-major order) of [t] replaced by [a]. *)
Fixpoint vset (v : list R) (i : nat) (a : R) : list R :=
  match v, i with
  | [], _ => []
  | _ :: v', O => a :: v'
  | b :: v', S i' => b :: vset v' i' a
  end.

Definition tt_set (t : tensor) (i : nat) (a : R) : tensor :=
  match t with
  | scalar r => scalar (match i with O => a | S _ => r end)
  | vector v => vector (vset v i a)
  end.

(** The derivative of [g] at [a] (some real number when there is none). *)
Definition deriv_at (g : R -> R) (a : R) : R :=
  epsilon (inhabits 0) (fun l => derivable_pt_lim g a l).

(** Modelled from the spec: [gradient] of pymc3/theanof.py, which is not among
    the sources.  The differentiation engine computes the derivative of a scalar
    output with respect to a tensor input; [gradient] returns it flattened, one
    partial derivative per entry of the input. *)
Definition gradient (f : tensor -> R) (x : tensor) : list R :=
  map (fun i => deriv_at (fun a => f (tt_set x i a)) (nth i (tt_flatten x) 0))
      (seq 0 (tt_size x)).

(** [tt.reshape] of a flat vector to the shape of a tensor of as many entries. *)
Definition tt_reshape (g : list R) (shape : option nat) : tensor :=
  match shape with
  | None => scalar (nth 0 g 0)
  | Some _ => vector g
  end.

Definition ElemwiseTransform_jacobian_det
    (backward : tensor -> tensor) (x : tensor) : tensor :=
  let grad := tt_reshape (gradient (fun x => tt_sum (backward x)) x) (tt_shape x) in
  tt_log (tt_abs_ grad).

(** ** The catalogue *)

Definition Log_backward (x : tensor) : tensor := tt_exp x.
Definition Log_forward (x : tensor) : tensor := tt_log x.
Definition Log_jacobian_det : tensor -> tensor :=
  ElemwiseTransform_jacobian_det Log_backward.

Definition log : Transform tensor tensor :=
  {| name := "log";
     forward := fun x => Some (Log_forward x);
     backward := Log_backward;
     jacobian_det := Log_jacobian_det |}.

Definition inverse_logit : R -> R := sigmoid.

Definition logit (x : R) : R := ln (x / (1 - x)).

Definition LogOdds_backward (x : tensor) : tensor := tmap inverse_logit x.
Definition LogOdds_forward (x : tensor) : tensor := tmap logit x.
Definition LogOdds_jacobian_det : tensor -> tensor :=
  ElemwiseTransform_jacobian_det LogOdds_backward.

Definition logodds : Transform tensor tensor :=
  {| name := "logodds";
     forward := fun x => Some (LogOdds_forward x);
     backward := LogOdds_backward;
     jacobian_det := LogOdds_jacobian_det |}.

Definition Interval_backward (a b : R) (x : tensor) : tensor :=
  tmap (fun x => (b - a) * exp x / (1 + exp x) + a) x.
Definition Interval_forward (a b : R) (x : tensor) : tensor :=
  tmap (fun x => ln ((x - a) / (b - x))) x.
Definition Interval_jacobian_det (a b : R) : tensor -> tensor :=
  ElemwiseTransform_jacobian_det (Interval_backward a b).

Definition interval (a b : R) : Transform tensor tensor :=
  {| name := "interval";
     forward := fun x => Some (Interval_forward a b x);
     backward := Interval_backward a b;
     jacobian_det := Interval_jacobian_det a b |}.

Definition SumTo1_backward (y : list R) : list R := y ++ [1 - vsum y].
Definition SumTo1_forward (x : list R) : list R := removelast x.
Definition SumTo1_jacobian_det (x : list R) : tensor := scalar 0.

Definition sum_to_1 : Transform (list R) (list R) :=
  {| name := "sumto1";
     forward := fun x => Some (SumTo1_forward x);
     backward := SumTo1_backward;
     jacobian_det := SumTo1_jacobian_det |}.

(** [tt.extra_ops.cumsum] and [cumprod] along the only axis of a vector. *)
Fixpoint cum (f : R -> R -> R) (acc : R) (l : list R) : list R :=
  match l with
  | [] => []
  | a :: l' => f acc a :: cum f (f acc a) l'
  end.

Definition cumsum (l : list R) : list R :=
  match l with
  | [] => []
  | a :: l' => a :: cum Rplus a l'
  end.

Definition cumprod (l : list R) : list R :=
  match l with
  | [] => []
  | a :: l' => a :: cum Rmult a l'
  end.

Definition arange (n : nat) : list nat := seq 0 n.
Definition ones (n : nat) : list R := repeat 1 n.

(** [x[-1]] raises on an empty vector. *)
Definition StickBreaking_forward (x : list R) : option (list R) :=
  match x with
  | [] => None
  | _ :: _ =>
      let x0 := removelast x in
      let s := map (fun c => c + last x 0) (rev (cumsum (rev x0))) in
      let z := zipWith Rdiv x0 s in
      let Km1 := (length x - 1)%nat in
      let k := arange Km1 in
      let eq_share := map (fun k => - ln (INR (Km1 - k))) k in
      let y := zipWith Rminus (map logit z) eq_share in
      Some y
  end.

Definition StickBreaking_backward (y : list R) : list R :=
  let Km1 := length y in
  let k := arange Km1 in
  let eq_share := map (fun k => - ln (INR (Km1 - k))) k in
  let z := map inverse_logit (zipWith Rplus y eq_share) in
  let yl := z ++ ones (length (firstn 1 y)) in
  let yu := ones (length (firstn 1 y)) ++ map (fun z => 1 - z) z in
  let S := cumprod yu in
  let x := zipWith Rmult S yl in
  x.

Definition StickBreaking_jacobian_det (y : list R) : tensor :=
  let Km1 := length y in
  let k := arange Km1 in
  let eq_share := map (fun k => - ln (INR (Km1 - k))) k in
  let yl := zipWith Rplus y eq_share in
  let yu := ones (length (firstn 1 y)) ++ map (fun t => 1 - inverse_logit t) yl in
  let S := cumprod yu in
  scalar (vsum (zipWith Rminus
                  (zipWith Rminus (map ln (removelast S))
                                  (map (fun t => log1p (exp t)) yl))
                  (map (fun t => log1p (exp (- t))) yl))).

Definition stick_breaking : Transform (list R) (list R) :=
  {| name := "stickbreaking";
     forward := StickBreaking_forward;
     backward := StickBreaking_backward;
     jacobian_det := StickBreaking_jacobian_det |}.

Definition Circular_backward (y : tensor) : tensor :=
  tmap (fun y => arctan2 (sin y) (cos y)) y.
Definition Circular_forward (x : tensor) : tensor := x.
Definition Circular_jacobian_det : tensor -> tensor :=
  ElemwiseTransform_jacobian_det Circular_backward.

Definition circular : Transform tensor tensor :=
  {| name := "circular";
     forward := fun x => Some (Circular_forward x);
     backward := Circular_backward;
     jacobian_det := Circular_jacobian_det |}.

(** ** The closed form of the stick-breaking Jacobian, as the specification
    writes it *)

Definition spec_zprime (y : list R) (k : nat) : R :=
  nth k y 0 - ln (INR (length y - k)).

Definition spec_S (y : list R) (k : nat) : R :=
  fold_right Rmult 1 (map (fun j => 1 - sigmoid (spec_zprime y j)) (seq 0 k)).

Definition spec_StickBreaking_jacobian (y : list R) : R :=
  vsum (map (fun k => ln (spec_S y k)
                      - ln (1 + exp (spec_zprime y k))
                      - ln (1 + exp (- spec_zprime y k)))
            (seq 0 (length y))).

(** The simplex: nonnegative entries summing to one; its interior has
    positive entries. *)
Definition simplex (x : list R) : Prop := Forall (fun r => 0 <= r) x /\ vsum x = 1.
Definition simplex_interior (x : list R) : Prop :=
  Forall (fun r => 0 < r) x /\ vsum x = 1.

(** ** Recursive forms used in the proofs *)

(** The stick-breaking reconstruction: [acc] is the stick that remains. *)
Fixpoint sb_back (acc : R) (z : list R) : list R :=
  match z with
  | [] => [acc]
  | a :: z' => acc * a :: sb_back (acc * (1 - a)) z'
  end.

Fixpoint sb_init (acc : R) (z : list R) : list R :=
  match z with
  | [] => []
  | a :: z' => acc * a :: sb_init (acc * (1 - a)) z'
  end.

Fixpoint sb_last (acc : R) (z : list R) : R :=
  match z with
  | [] => acc
  | a :: z' => sb_last (acc * (1 - a)) z'
  end.

(** Sums of the suffixes of a vector (the reverse cumulative sum). *)
Fixpoint rsum (l : list R) : list R :=
  match l with
  | [] => []
  | a :: l' => (a + vsum l') :: rsum l'
  end.

(** Products of the proper prefixes of a vector, each times [acc]. *)
Fixpoint prefix_prod (acc : R) (m : list R) : list R :=
  match m with
  | [] => []
  | a :: m' => acc :: prefix_prod (acc * a) m'
  end.

(** ** Values in the binary64 range *)

(** The tensors of the program hold binary64 numbers.  The definitions above
    give the expressions their exact real value; the ones below keep, beside
    it, the range of the format: a result of magnitude [f64_huge] or more is
    an infinity, a product, quotient or exponential of magnitude [f64_tiny] or
    less is zero, and the special values follow the IEEE 754 rules.  Rounding
    inside the range is not modelled, and zero carries no sign. *)
Inductive f64 : Type :=
| Fin (r : R)
| PInf
| NInf
| NaN.

(** The least magnitude that rounds to an infinity, and half the least
    positive number of the format. *)
Definition f64_huge : R := 2 ^ 1024 - 2 ^ 970.
Definition f64_tiny : R := / 2 ^ 1075.

Definition overflow (r : R) : f64 :=
  if Rle_dec f64_huge r then PInf
  else if Rle_dec r (- f64_huge) then NInf
  else Fin r.

Definition to_f64 (r : R) : f64 :=
  if Rle_dec (Rabs r) f64_tiny then Fin 0 else overflow r.

Definition f_neg (x : f64) : f64 :=
  match x with
  | Fin r => Fin (- r)
  | PInf => NInf
  | NInf => PInf
  | NaN => NaN
  end.

Definition f_abs (x : f64) : f64 :=
  match x with
  | Fin r => Fin (Rabs r)
  | PInf | NInf => PInf
  | NaN => NaN
  end.

Definition f_add (x y : f64) : f64 :=
  match x, y with
  | NaN, _ | _, NaN => NaN
  | Fin a, Fin b => overflow (a + b)
  | PInf, NInf | NInf, PInf => NaN
  | PInf, _ | _, PInf => PInf
  | NInf, _ | _, NInf => NInf
  end.

Definition f_sub (x y : f64) : f64 := f_add x (f_neg y).

(** The infinity of the sign of [r], for [r] other than zero. *)
Definition f_inf_of (r : R) : f64 := if Rlt_dec 0 r then PInf else NInf.

Definition f_mul (x y : f64) : f64 :=
  match x, y with
  | NaN, _ | _, NaN => NaN
  | Fin a, Fin b => to_f64 (a * b)
  | Fin a, PInf | PInf, Fin a =>
      if Req_EM_T a 0 then NaN else f_inf_of a
  | Fin a, NInf | NInf, Fin a =>
      if Req_EM_T a 0 then NaN else f_inf_of (- a)
  | PInf, PInf | NInf, NInf => PInf
  | PInf, NInf | NInf, PInf => NInf
  end.

Definition f_div (x y : f64) : f64 :=
  match x, y with
  | NaN, _ | _, NaN => NaN
  | Fin a, Fin b =>
      if Req_EM_T b 0
      then (if Req_EM_T a 0 then NaN else f_inf_of a)
      else to_f64 (a / b)
  | Fin _, PInf | Fin _, NInf => Fin 0
  | PInf, Fin b => if Rle_dec 0 b then PInf else NInf
  | NInf, Fin b => if Rle_dec 0 b then NInf else PInf
  | PInf, PInf | PInf, NInf | NInf, PInf | NInf, NInf => NaN
  end.

Definition f_exp (x : f64) : f64 :=
  match x with
  | Fin r => to_f64 (exp r)
  | PInf => PInf
  | NInf => Fin 0
  | NaN => NaN
  end.

Definition f_log (x : f64) : f64 :=
  match x with
  | Fin r =>
      if Rlt_dec 0 r then Fin (ln r)
      else if Req_EM_T r 0 then NInf else NaN
  | PInf => PInf
  | NInf => NaN
  | NaN => NaN
  end.

(** [tt.nnet.sigmoid] and [logit] on one entry, in the binary64 range. *)
Definition f_sigmoid (x : f64) : f64 :=
  f_div (Fin 1) (f_add (Fin 1) (f_exp (f_neg x))).

Definition f_logit (x : f64) : f64 := f_log (f_div x (f_sub (Fin 1) x)).

Inductive ftensor : Type :=
| fscalar (v : f64)
| fvector (l : list f64).

Definition ftmap (f : f64 -> f64) (t : ftensor) : ftensor :=
  match t with
  | fscalar v => fscalar (f v)
  | fvector l => fvector (map f l)
  end.



(** A tensor of real numbers, read as a tensor of finite values. *)
Definition f_of_tensor (t : tensor) : ftensor :=
  match t with
  | scalar r => fscalar (Fin r)
  | vector v => fvector (map Fin v)
  end.

Definition ft_reshape (g : list f64) (shape : option nat) : ftensor :=
  match shape with
  | None => fscalar (nth 0 g NaN)
  | Some _ => fvector g
  end.

(** The default Jacobian in the binary64 range: the entries of the gradient
    are brought into the range, then [abs] and [log] are applied. *)
Definition ElemwiseTransform_jacobian_det_f64
    (backward : tensor -> tensor) (x : tensor) : ftensor :=
  let grad :=
    ft_reshape (map to_f64 (gradient (fun x => tt_sum (backward x)) x))
               (tt_shape x) in
  ftmap f_log (ftmap f_abs grad).

Definition Log_backward_f64 (x : ftensor) : ftensor := ftmap f_exp x.
Definition Log_forward_f64 (x : ftensor) : ftensor := ftmap f_log x.
Definition Log_jacobian_det_f64 : tensor -> ftensor :=
  ElemwiseTransform_jacobian_det_f64 Log_backward.

Definition LogOdds_backward_f64 (x : ftensor) : ftensor := ftmap f_sigmoid x.
Definition LogOdds_forward_f64 (x : ftensor) : ftensor := ftmap f_logit x.

Definition Interval_backward_f64 (a b : R) (x : ftensor) : ftensor :=
  ftmap (fun x => f_add (f_div (f_mul (f_sub (Fin b) (Fin a)) (f_exp x))
                               (f_add (Fin 1) (f_exp x)))
                        (Fin a)) x.

Definition Interval_forward_f64 (a b : R) (x : ftensor) : ftensor :=
  ftmap (fun x => f_log (f_div (f_sub x (Fin a)) (f_sub (Fin b) x))) x.

(** ** Tensors: basic facts *)

Lemma tmap_tmap (f g : R -> R) (t : tensor) :
  tmap g (tmap f t) = tmap (fun r => g (f r)) t.
Proof.
  destruct t as [r|v]; simpl; [reflexivity|].
  now rewrite map_map.
Qed.

Lemma tmap_id_on (P : R -> Prop) (f : R -> R) (t : tensor) :
  (forall r, P r -> f r = r) -> tt_all P t -> tmap f t = t.
Proof.
  intros Hf Ht. destruct t as [r|v]; simpl in *.
  - now rewrite Hf.
  - f_equal. induction Ht as [|a v Ha _ IH]; simpl; [reflexivity|].
    now rewrite Hf, IH.
Qed.

Lemma tmap_ext (f g : R -> R) (t : tensor) :
  (forall r, f r = g r) -> tmap f t = tmap g t.
Proof.
  intros Hfg. destruct t as [r|v]; simpl; [now rewrite Hfg|].
  f_equal. now apply map_ext.
Qed.

Lemma tt_all_tmap (P : R -> Prop) (f : R -> R) (t : tensor) :
  (forall r, P (f r)) -> tt_all P (tmap f t).
Proof.
  intros Hf. destruct t as [r|v]; simpl; [apply Hf|].
  apply Forall_forall. intros y Hy. apply in_map_iff in Hy.
  destruct Hy as [r [<- _]]. apply Hf.
Qed.

Lemma tt_all_True (t : tensor) : tt_all (fun _ => True) t.
Proof.
  destruct t as [r|v]; simpl; [exact I|].
  apply Forall_forall. intros; exact I.
Qed.

(** ** The logistic function and the log-odds *)

Lemma sigmoid_pos (y : R) : 0 < sigmoid y.
Proof.
  unfold sigmoid. pose proof (exp_pos (- y)).
  apply Rdiv_lt_0_compat; lra.
Qed.

Lemma sigmoid_lt_1 (y : R) : sigmoid y < 1.
Proof.
  unfold sigmoid. pose proof (exp_pos (- y)) as He.
  apply Rmult_lt_reg_r with (1 + exp (- y)); [lra|].
  unfold Rdiv. rewrite Rmult_assoc, Rinv_l by lra. lra.
Qed.

Lemma sigmoid_exp (y : R) : sigmoid y = exp y / (1 + exp y).
Proof.
  unfold sigmoid. rewrite exp_Ropp.
  pose proof (exp_pos y). field. split; lra.
Qed.

Lemma one_minus_sigmoid (y : R) : 1 - sigmoid y = 1 / (1 + exp y).
Proof.
  rewrite sigmoid_exp. pose proof (exp_pos y). field. lra.
Qed.

Lemma logit_sigmoid (y : R) : logit (sigmoid y) = y.
Proof.
  unfold logit. rewrite one_minus_sigmoid, sigmoid_exp.
  pose proof (exp_pos y).
  replace (exp y / (1 + exp y) / (1 / (1 + exp y))) with (exp y)
    by (field; lra).
  apply ln_exp.
Qed.

Lemma sigmoid_logit (x : R) : 0 < x < 1 -> sigmoid (logit x) = x.
Proof.
  intros [H0 H1]. unfold sigmoid, logit.
  assert (Hq : 0 < x / (1 - x)) by (apply Rdiv_lt_0_compat; lra).
  rewrite exp_Ropp, exp_ln by exact Hq.
  field. split; lra.
Qed.

(** ** The angle function *)

Lemma arctan2_bound (y x : R) : - PI < arctan2 y x <= PI.
Proof.
  unfold arctan2. pose proof PI_RGT_0 as Hpi.
  destruct (total_order_T 0 x) as [[Hx|Hx]|Hx].
  - pose proof (atan_bound (y / x)). lra.
  - destruct (total_order_T 0 y) as [[Hy|Hy]|Hy]; lra.
  - assert (Hix : / x < 0) by now apply Rinv_lt_0_compat.
    destruct (Rle_dec 0 y) as [Hy|Hy].
    + assert (Hq : y / x <= 0) by (unfold Rdiv; nra).
      pose proof (atan_bound (y / x)) as Hb.
      assert (atan (y / x) <= 0).
      { destruct Hq as [Hq|Hq].
        - left. rewrite <- atan_0. now apply atan_increasing.
        - rewrite Hq, atan_0. lra. }
      lra.
    + assert (Hq : 0 < y / x) by (unfold Rdiv; nra).
      pose proof (atan_bound (y / x)) as Hb.
      assert (0 < atan (y / x)).
      { rewrite <- atan_0. now apply atan_increasing. }
      lra.
Qed.

Lemma arctan2_0_pos (x : R) : 0 < x -> arctan2 0 x = 0.
Proof.
  intros Hx. unfold arctan2.
  destruct (total_order_T 0 x) as [[H|H]|H]; try lra.
  unfold Rdiv. rewrite Rmult_0_l. apply atan_0.
Qed.

Lemma arctan2_0_neg (x : R) : x < 0 -> arctan2 0 x = PI.
Proof.
  intros Hx. unfold arctan2.
  destruct (total_order_T 0 x) as [[H|H]|H]; try lra.
  destruct (Rle_dec 0 0) as [_|Hn]; [|lra].
  unfold Rdiv. rewrite Rmult_0_l, atan_0. lra.
Qed.

Lemma tan_shift (x : R) : cos x <> 0 -> sin (x + PI) / cos (x + PI) = sin x / cos x.
Proof.
  intros Hc. rewrite neg_sin, neg_cos. field. exact Hc.
Qed.

Lemma arctan2_sin_cos (x : R) : - PI < x <= PI -> arctan2 (sin x) (cos x) = x.
Proof.
  intros [Hlo Hhi]. pose proof PI_RGT_0 as Hpi.
  destruct (Rlt_dec x (- (PI / 2))) as [H1|H1].
  - (* third quadrant *)
    assert (Hs : sin x < 0) by (apply sin_lt_0_var; lra).
    assert (Hc : cos x < 0).
    { rewrite <- cos_neg. apply cos_lt_0; lra. }
    unfold arctan2.
    destruct (total_order_T 0 (cos x)) as [[H|H]|H]; try lra.
    destruct (Rle_dec 0 (sin x)) as [Hy|_]; [lra|].
    rewrite <- (tan_shift x) by lra.
    change (sin (x + PI) / cos (x + PI)) with (tan (x + PI)).
    rewrite atan_tan by lra. lra.
  - destruct (Req_dec x (- (PI / 2))) as [H2|H2].
    + subst x. unfold arctan2. rewrite cos_neg, sin_neg, cos_PI2, sin_PI2.
      destruct (total_order_T 0 0) as [[H|H]|H]; try lra.
      destruct (total_order_T 0 (- (1))) as [[H'|H']|H']; lra.
    + destruct (Rlt_dec x (PI / 2)) as [H3|H3].
      * assert (Hc : 0 < cos x) by (apply cos_gt_0; lra).
        unfold arctan2.
        destruct (total_order_T 0 (cos x)) as [[H|H]|H]; try lra.
        change (sin x / cos x) with (tan x).
        apply atan_tan. lra.
      * destruct (Req_dec x (PI / 2)) as [H4|H4].
        -- subst x. unfold arctan2. rewrite cos_PI2, sin_PI2.
           destruct (total_order_T 0 0) as [[H|H]|H]; try lra.
           destruct (total_order_T 0 1) as [[H'|H']|H']; lra.
        -- assert (Hs : 0 <= sin x) by (apply sin_ge_0; lra).
           assert (Hc : cos x < 0) by (apply cos_lt_0; lra).
           unfold arctan2.
           destruct (total_order_T 0 (cos x)) as [[H|H]|H]; try lra.
           destruct (Rle_dec 0 (sin x)) as [_|Hy]; [|lra].
           assert (Hc' : cos (x - PI) <> 0).
           { replace x with (x - PI + PI) in Hc by lra.
             rewrite neg_cos in Hc. lra. }
           replace (sin x / cos x) with (tan (x - PI)).
           2:{ unfold tan. rewrite <- (tan_shift (x - PI)) by exact Hc'.
               now replace (x - PI + PI) with x by lra. }
           rewrite atan_tan by lra. lra.
Qed.

(** ** Elementwise transforms: inverses and ranges *)

Lemma Log_backward_forward (x : tensor) :
  tt_all (fun r => 0 < r) x -> Log_backward (Log_forward x) = x.
Proof.
  intros Hx. unfold Log_backward, Log_forward, tt_exp, tt_log.
  rewrite tmap_tmap. apply tmap_id_on with (P := fun r => 0 < r); [|exact Hx].
  intros r Hr. now apply exp_ln.
Qed.

Lemma Log_forward_backward (y : tensor) : Log_forward (Log_backward y) = y.
Proof.
  unfold Log_backward, Log_forward, tt_exp, tt_log.
  rewrite tmap_tmap. apply tmap_id_on with (P := fun _ => True).
  - intros r _. apply ln_exp.
  - apply tt_all_True.
Qed.

Lemma LogOdds_backward_forward (x : tensor) :
  tt_all (fun r => 0 < r < 1) x -> LogOdds_backward (LogOdds_forward x) = x.
Proof.
  intros Hx. unfold LogOdds_backward, LogOdds_forward, inverse_logit.
  rewrite tmap_tmap. apply tmap_id_on with (P := fun r => 0 < r < 1); [|exact Hx].
  intros r Hr. now apply sigmoid_logit.
Qed.

Lemma LogOdds_forward_backward (y : tensor) :
  LogOdds_forward (LogOdds_backward y) = y.
Proof.
  unfold LogOdds_backward, LogOdds_forward, inverse_logit.
  rewrite tmap_tmap. apply tmap_id_on with (P := fun _ => True).
  - intros r _. apply logit_sigmoid.
  - apply tt_all_True.
Qed.

Lemma Interval_backward_elem (a b y : R) :
  (b - a) * exp y / (1 + exp y) + a = (b - a) * sigmoid y + a.
Proof.
  rewrite sigmoid_exp. unfold Rdiv. ring.
Qed.

Lemma Interval_backward_forward (a b : R) (x : tensor) :
  a < b -> tt_all (fun r => a < r < b) x ->
  Interval_backward a b (Interval_forward a b x) = x.
Proof.
  intros Hab Hx. unfold Interval_backward, Interval_forward.
  rewrite tmap_tmap. apply tmap_id_on with (P := fun r => a < r < b); [|exact Hx].
  intros r [Hr1 Hr2].
  assert (Hq : 0 < (r - a) / (b - r)) by (apply Rdiv_lt_0_compat; lra).
  rewrite exp_ln by exact Hq. field. split; lra.
Qed.

Lemma Interval_forward_backward (a b : R) (y : tensor) :
  a < b -> Interval_forward a b (Interval_backward a b y) = y.
Proof.
  intros Hab. unfold Interval_backward, Interval_forward.
  rewrite tmap_tmap. apply tmap_id_on with (P := fun _ => True).
  2: apply tt_all_True.
  intros r _. pose proof (exp_pos r) as He.
  replace (((b - a) * exp r / (1 + exp r) + a - a)
           / (b - ((b - a) * exp r / (1 + exp r) + a))) with (exp r)
    by (field; split; lra).
  apply ln_exp.
Qed.

Lemma Circular_backward_forward (x : tensor) :
  tt_all (fun r => - PI < r <= PI) x -> Circular_backward (Circular_forward x) = x.
Proof.
  intros Hx. unfold Circular_backward, Circular_forward.
  apply tmap_id_on with (P := fun r => - PI < r <= PI); [|exact Hx].
  intros r Hr. now apply arctan2_sin_cos.
Qed.

Lemma Circular_backward_range (y : tensor) :
  tt_all (fun r => - PI < r <= PI) (Circular_backward y).
Proof.
  unfold Circular_backward. apply tt_all_tmap.
  intros r. apply arctan2_bound.
Qed.

(** ** The default Jacobian *)

Lemma derivable_pt_lim_ext (f g : R -> R) (a l : R) :
  (forall t, f t = g t) -> derivable_pt_lim f a l -> derivable_pt_lim g a l.
Proof.
  intros Hfg Hf eps Heps. destruct (Hf eps Heps) as [delta Hd].
  exists delta. intros h Hh0 Hh. rewrite <- !Hfg. now apply Hd.
Qed.

Lemma deriv_at_eq (g : R -> R) (a l : R) :
  derivable_pt_lim g a l -> deriv_at g a = l.
Proof.
  intros Hl. unfold deriv_at.
  apply (uniqueness_limite g a); [|exact Hl].
  apply epsilon_spec. now exists l.
Qed.

Lemma vsum_map_vset (b : R -> R) (v : list R) (i : nat) (t : R) :
  (i < length v)%nat ->
  vsum (map b (vset v i t)) = b t + (vsum (map b v) - b (nth i v 0)).
Proof.
  revert i. induction v as [|c v IH]; intros i Hi; simpl in Hi; [lia|].
  destruct i as [|i]; simpl.
  - unfold vsum; simpl. lra.
  - unfold vsum in *; simpl. rewrite IH by lia. lra.
Qed.

Lemma partial_elemwise (b b' : R -> R) (v : list R) (i : nat) :
  (i < length v)%nat ->
  derivable_pt_lim b (nth i v 0) (b' (nth i v 0)) ->
  derivable_pt_lim (fun t => tt_sum (tmap b (tt_set (vector v) i t)))
                   (nth i v 0) (b' (nth i v 0)).
Proof.
  intros Hi Hb.
  apply derivable_pt_lim_ext
    with (f := (b + fct_cte (vsum (map b v) - b (nth i v 0)))%F).
  - intros t. unfold plus_fct, fct_cte, tt_sum. simpl.
    now rewrite vsum_map_vset.
  - replace (b' (nth i v 0)) with (b' (nth i v 0) + 0) by lra.
    apply derivable_pt_lim_plus; [exact Hb|apply derivable_pt_lim_const].
Qed.

Lemma map_nth_seq (f : R -> R) (v : list R) :
  map (fun i => f (nth i v 0)) (seq 0 (length v)) = map f v.
Proof.
  induction v as [|c v IH]; simpl; [reflexivity|].
  f_equal. rewrite <- seq_shift, map_map. exact IH.
Qed.

Lemma gradient_elemwise (b b' : R -> R) (x : tensor) :
  tt_all (fun t => derivable_pt_lim b t (b' t)) x ->
  gradient (fun v => tt_sum (tmap b v)) x = map b' (tt_flatten x).
Proof.
  intros Hb. destruct x as [r|v]; unfold gradient, tt_size; simpl in *.
  - f_equal. apply deriv_at_eq.
    apply derivable_pt_lim_ext with (f := b); [|exact Hb].
    intros t. unfold tt_sum, vsum; simpl. lra.
  - rewrite <- (map_nth_seq b' v). apply map_ext_in.
    intros i Hi. apply in_seq in Hi. apply deriv_at_eq.
    apply partial_elemwise; [lia|].
    rewrite Forall_forall in Hb. apply Hb. apply nth_In. lia.
Qed.

Lemma gradient_length (f : tensor -> R) (x : tensor) :
  length (gradient f x) = tt_size x.
Proof.
  unfold gradient. now rewrite length_map, length_seq.
Qed.

Lemma ElemwiseTransform_jacobian_det_elemwise (b b' : R -> R) (x : tensor) :
  tt_all (fun t => derivable_pt_lim b t (b' t)) x ->
  ElemwiseTransform_jacobian_det (tmap b) x = tmap (fun t => ln (Rabs (b' t))) x.
Proof.
  intros Hb. unfold ElemwiseTransform_jacobian_det.
  rewrite (gradient_elemwise b b' x Hb).
  unfold tt_log, tt_abs_. rewrite tmap_tmap.
  destruct x as [r|v]; simpl; [reflexivity|].
  now rewrite map_map.
Qed.

Lemma tt_all_forall (P : R -> Prop) (x : tensor) : (forall t, P t) -> tt_all P x.
Proof.
  intros HP. destruct x as [r|v]; simpl; [apply HP|].
  apply Forall_forall. intros t _. apply HP.
Qed.

Lemma derivable_pt_lim_sigmoid (t : R) :
  derivable_pt_lim sigmoid t (sigmoid t * (1 - sigmoid t)).
Proof.
  pose proof (exp_pos t) as He.
  apply derivable_pt_lim_ext with (f := (exp / (fct_cte 1 + exp))%F).
  - intros y. unfold div_fct, plus_fct, fct_cte. now rewrite sigmoid_exp.
  - replace (sigmoid t * (1 - sigmoid t))
      with ((exp t * (fct_cte 1 + exp)%F t - (0 + exp t) * exp t)
            / Rsqr ((fct_cte 1 + exp)%F t)).
    + apply derivable_pt_lim_div.
      * apply derivable_pt_lim_exp.
      * apply derivable_pt_lim_plus;
          [apply derivable_pt_lim_const|apply derivable_pt_lim_exp].
      * unfold plus_fct, fct_cte. lra.
    + rewrite one_minus_sigmoid, sigmoid_exp.
      unfold plus_fct, fct_cte, Rsqr. field. lra.
Qed.

Lemma derivable_pt_lim_Interval (a b t : R) :
  derivable_pt_lim (fun x => (b - a) * exp x / (1 + exp x) + a) t
                   ((b - a) * (sigmoid t * (1 - sigmoid t))).
Proof.
  apply derivable_pt_lim_ext
    with (f := (mult_real_fct (b - a) sigmoid + fct_cte a)%F).
  - intros y. unfold plus_fct, mult_real_fct, fct_cte.
    now rewrite Interval_backward_elem.
  - replace ((b - a) * (sigmoid t * (1 - sigmoid t)))
      with ((b - a) * (sigmoid t * (1 - sigmoid t)) + 0) by lra.
    apply derivable_pt_lim_plus; [|apply derivable_pt_lim_const].
    apply derivable_pt_lim_scal. apply derivable_pt_lim_sigmoid.
Qed.

(** ** Vectors: sums, cumulative operations, entrywise operations *)

Lemma vsum_app (u v : list R) : vsum (u ++ v) = vsum u + vsum v.
Proof.
  unfold vsum. induction u as [|a u IH]; simpl; [lra|].
  rewrite IH. lra.
Qed.

Lemma vsum_rev (l : list R) : vsum (rev l) = vsum l.
Proof.
  induction l as [|a l IH]; simpl; [reflexivity|].
  rewrite vsum_app, IH. unfold vsum; simpl. lra.
Qed.

Lemma snoc_eq (l : list R) (a b : R) : a = b -> l ++ [a] = l ++ [b].
Proof. now intros ->. Qed.

Lemma cons_eq (l : list R) (a b : R) : a = b -> a :: l = b :: l.
Proof. now intros ->. Qed.

Lemma cum_plus_snoc (acc : R) (m : list R) (a : R) :
  cum Rplus acc (m ++ [a]) = cum Rplus acc m ++ [acc + vsum m + a].
Proof.
  revert acc. induction m as [|c m IH]; intros acc; simpl.
  - apply (snoc_eq []). unfold vsum; simpl. lra.
  - rewrite IH. apply f_equal, snoc_eq. unfold vsum; simpl. lra.
Qed.

Lemma cumsum_snoc (m : list R) (a : R) :
  cumsum (m ++ [a]) = cumsum m ++ [vsum m + a].
Proof.
  destruct m as [|b m]; simpl.
  - apply (snoc_eq []). unfold vsum; simpl. lra.
  - rewrite cum_plus_snoc. apply f_equal, snoc_eq. unfold vsum; simpl. lra.
Qed.

Lemma rev_cumsum_rev (l : list R) : rev (cumsum (rev l)) = rsum l.
Proof.
  induction l as [|a l IH]; simpl; [reflexivity|].
  rewrite cumsum_snoc, rev_app_distr. simpl.
  rewrite IH, vsum_rev. apply cons_eq. lra.
Qed.

Lemma rsum_length (l : list R) : length (rsum l) = length l.
Proof. induction l as [|a l IH]; simpl; [reflexivity|now rewrite IH]. Qed.

Lemma zipWith_length (f : R -> R -> R) (u v : list R) :
  length u = length v -> length (zipWith f u v) = length u.
Proof.
  revert v. induction u as [|a u IH]; intros [|b v] H; simpl in *; try lia.
  rewrite IH; lia.
Qed.

Lemma zipWith_minus_plus (w e : list R) :
  length w = length e -> zipWith Rminus (zipWith Rplus w e) e = w.
Proof.
  revert e. induction w as [|a w IH]; intros [|b e] H; simpl in *; try lia.
  - reflexivity.
  - rewrite IH by lia. apply cons_eq. lra.
Qed.

Lemma zipWith_plus_minus (w e : list R) :
  length w = length e -> zipWith Rplus (zipWith Rminus w e) e = w.
Proof.
  revert e. induction w as [|a w IH]; intros [|b e] H; simpl in *; try lia.
  - reflexivity.
  - rewrite IH by lia. apply cons_eq. lra.
Qed.

Lemma map_id_on (P : R -> Prop) (f : R -> R) (l : list R) :
  (forall r, P r -> f r = r) -> Forall P l -> map f l = l.
Proof.
  intros Hf Hl. induction Hl as [|a l Ha _ IH]; simpl; [reflexivity|].
  now rewrite Hf, IH.
Qed.

Lemma eq_share_S (n : nat) :
  map (fun k => - ln (INR (S n - k))) (seq 0 (S n))
  = - ln (INR (S n)) :: map (fun k => - ln (INR (n - k))) (seq 0 n).
Proof.
  simpl seq. simpl map. f_equal.
  rewrite <- seq_shift, map_map. reflexivity.
Qed.

Lemma eq_share_length (n : nat) :
  length (map (fun k => - ln (INR (n - k))) (arange n)) = n.
Proof. unfold arange. now rewrite length_map, length_seq. Qed.

(** ** Stick breaking: the reconstruction *)

Lemma sb_back_split (acc : R) (z : list R) :
  sb_back acc z = sb_init acc z ++ [sb_last acc z].
Proof.
  revert acc. induction z as [|a z IH]; intros acc; simpl; [reflexivity|].
  now rewrite IH.
Qed.

Lemma sb_back_sum (acc : R) (z : list R) : vsum (sb_back acc z) = acc.
Proof.
  revert acc. induction z as [|a z IH]; intros acc; simpl.
  - unfold vsum; simpl. lra.
  - change (vsum (acc * a :: sb_back (acc * (1 - a)) z))
      with (acc * a + vsum (sb_back (acc * (1 - a)) z)).
    rewrite IH. lra.
Qed.

Lemma sb_init_length (acc : R) (z : list R) : length (sb_init acc z) = length z.
Proof.
  revert acc. induction z as [|a z IH]; intros acc; simpl; [reflexivity|].
  now rewrite IH.
Qed.

Lemma cumprod_sb_back (acc : R) (z : list R) :
  zipWith Rmult (acc :: cum Rmult acc (map (fun z => 1 - z) z)) (z ++ [1])
  = sb_back acc z.
Proof.
  revert acc. induction z as [|a z IH]; intros acc; simpl.
  - apply cons_eq. lra.
  - apply f_equal, IH.
Qed.

Lemma StickBreaking_backward_cons (a : R) (y : list R) :
  StickBreaking_backward (a :: y)
  = sb_back 1 (map inverse_logit
                 (zipWith Rplus (a :: y)
                    (map (fun k => - ln (INR (length (a :: y) - k)))
                         (arange (length (a :: y)))))).
Proof.
  unfold StickBreaking_backward.
  change (ones (length (firstn 1 (a :: y)))) with [1].
  change ([1] ++ ?l) with (1 :: l).
  unfold cumprod. apply cumprod_sb_back.
Qed.

Lemma StickBreaking_backward_nonempty (y : list R) :
  y <> [] ->
  StickBreaking_backward y
  = sb_back 1 (map inverse_logit
                 (zipWith Rplus y
                    (map (fun k => - ln (INR (length y - k))) (arange (length y))))).
Proof.
  destruct y as [|a y]; [congruence|]. intros _.
  apply StickBreaking_backward_cons.
Qed.

Lemma sb_init_last_sum (acc : R) (z : list R) :
  vsum (sb_init acc z) + sb_last acc z = acc.
Proof.
  rewrite <- (sb_back_sum acc z) at 3.
  rewrite sb_back_split, vsum_app. unfold vsum; simpl. lra.
Qed.

(** ** Stick breaking: the forward map *)

Lemma StickBreaking_forward_snoc (x0 : list R) (xl : R) :
  StickBreaking_forward (x0 ++ [xl])
  = Some (zipWith Rminus
            (map logit (zipWith Rdiv x0 (map (fun c => c + xl) (rsum x0))))
            (map (fun k => - ln (INR (length x0 - k))) (arange (length x0)))).
Proof.
  unfold StickBreaking_forward.
  destruct (x0 ++ [xl]) as [|c l] eqn:E.
  - destruct x0; discriminate.
  - rewrite <- E.
    rewrite removelast_last, last_last, rev_cumsum_rev, length_app.
    simpl length. now rewrite Nat.add_sub.
Qed.

Lemma forward_fractions (z : list R) (acc : R) :
  acc <> 0 -> Forall (fun a => a <> 1) z ->
  zipWith Rdiv (sb_init acc z)
          (map (fun c => c + sb_last acc z) (rsum (sb_init acc z))) = z.
Proof.
  intros Hacc Hz. revert acc Hacc.
  induction Hz as [|a z Ha _ IH]; intros acc Hacc; simpl; [reflexivity|].
  assert (Hacc' : acc * (1 - a) <> 0).
  { apply Rmult_integral_contrapositive. split; lra. }
  rewrite (IH _ Hacc'). apply cons_eq.
  pose proof (sb_init_last_sum (acc * (1 - a)) z) as Hs.
  replace (acc * a + vsum (sb_init (acc * (1 - a)) z) + sb_last (acc * (1 - a)) z)
    with acc by lra.
  field. exact Hacc.
Qed.

Lemma StickBreaking_forward_backward (y : list R) :
  y <> [] -> StickBreaking_forward (StickBreaking_backward y) = Some y.
Proof.
  intros Hy. rewrite (StickBreaking_backward_nonempty y Hy).
  set (e := map (fun k => - ln (INR (length y - k))) (arange (length y))).
  assert (He : length e = length y) by apply eq_share_length.
  set (z := map inverse_logit (zipWith Rplus y e)).
  assert (Hlen : length z = length y).
  { unfold z. rewrite length_map, zipWith_length; congruence. }
  rewrite sb_back_split, StickBreaking_forward_snoc, sb_init_length, Hlen.
  rewrite forward_fractions.
  - unfold z. rewrite map_map.
    rewrite (map_id_on (fun _ => True)).
    + fold e. now rewrite zipWith_minus_plus by congruence.
    + intros r _. apply logit_sigmoid.
    + apply Forall_forall. intros; exact I.
  - lra.
  - unfold z. apply Forall_forall. intros r Hr.
    apply in_map_iff in Hr. destruct Hr as [t [<- _]].
    pose proof (sigmoid_lt_1 t). unfold inverse_logit. lra.
Qed.

Lemma vsum_pos_nonneg (l : list R) : Forall (fun r => 0 < r) l -> 0 <= vsum l.
Proof.
  intros H. induction H as [|a l Ha _ IH]; unfold vsum in *; simpl; lra.
Qed.

Lemma backward_fractions (x0 : list R) (xl T : R) :
  Forall (fun r => 0 < r) x0 -> 0 < xl -> T = vsum x0 + xl ->
  sb_back T (zipWith Rdiv x0 (map (fun c => c + xl) (rsum x0))) = x0 ++ [xl].
Proof.
  intros Hx Hl. revert T.
  induction Hx as [|a x0 Ha Hx IH]; intros T ->.
  - simpl. apply cons_eq. unfold vsum; simpl. lra.
  - pose proof (vsum_pos_nonneg x0 Hx) as Hs.
    cbn [rsum map zipWith sb_back app].
    assert (Hc : vsum (a :: x0) = a + vsum x0) by reflexivity.
    rewrite Hc. rewrite (IH ((a + vsum x0 + xl) * (1 - a / (a + vsum x0 + xl)))).
    + apply cons_eq. field. lra.
    + field. lra.
Qed.

Lemma fractions_in_unit (x0 : list R) (xl : R) :
  Forall (fun r => 0 < r) x0 -> 0 < xl ->
  Forall (fun r => 0 < r < 1) (zipWith Rdiv x0 (map (fun c => c + xl) (rsum x0))).
Proof.
  intros Hx Hl. induction Hx as [|a x0 Ha Hx IH]; simpl; constructor; [|exact IH].
  pose proof (vsum_pos_nonneg x0 Hx) as Hs.
  split.
  - apply Rdiv_lt_0_compat; lra.
  - apply Rmult_lt_reg_r with (a + vsum x0 + xl); [lra|].
    unfold Rdiv. rewrite Rmult_assoc, Rinv_l by lra. lra.
Qed.

Lemma StickBreaking_backward_forward (x : list R) :
  simplex_interior x -> (2 <= length x)%nat ->
  exists y, StickBreaking_forward x = Some y
            /\ length y = (length x - 1)%nat
            /\ StickBreaking_backward y = x.
Proof.
  intros [Hpos Hsum] Hlen.
  assert (Hne : x <> []) by (destruct x; simpl in Hlen; [lia|discriminate]).
  pose proof (app_removelast_last 0 Hne) as Hx.
  set (x0 := removelast x) in *. set (xl := last x 0) in *.
  rewrite Hx in Hpos, Hsum, Hlen |- *. clear Hx Hne.
  apply Forall_app in Hpos. destruct Hpos as [Hpos0 Hposl].
  apply Forall_inv in Hposl.
  rewrite vsum_app in Hsum.
  assert (Hsum' : 1 = vsum x0 + xl) by (unfold vsum in *; simpl in *; lra).
  rewrite length_app in Hlen |- *. simpl length in *.
  rewrite StickBreaking_forward_snoc.
  set (e := map (fun k => - ln (INR (length x0 - k))) (arange (length x0))).
  assert (He : length e = length x0) by apply eq_share_length.
  set (z := zipWith Rdiv x0 (map (fun c => c + xl) (rsum x0))).
  assert (Hz : length z = length x0).
  { unfold z. apply zipWith_length. now rewrite length_map, rsum_length. }
  assert (Hy : length (zipWith Rminus (map logit z) e) = length x0).
  { rewrite zipWith_length; rewrite length_map; congruence. }
  eexists. split; [reflexivity|]. split; [lia|].
  rewrite StickBreaking_backward_nonempty.
  2:{ intros E. rewrite E in Hy. simpl in Hy. lia. }
  rewrite Hy. fold e.
  rewrite zipWith_plus_minus by (rewrite length_map; congruence).
  rewrite map_map.
  rewrite (map_id_on (fun r => 0 < r < 1)).
  - now apply backward_fractions.
  - intros r Hr. now apply sigmoid_logit.
  - now apply fractions_in_unit.
Qed.

(** ** Stick breaking: the closed-form Jacobian *)

Lemma removelast_cum (acc : R) (m : list R) :
  removelast (acc :: cum Rmult acc m) = prefix_prod acc m.
Proof.
  revert acc. induction m as [|a m IH]; intros acc; [reflexivity|].
  cbn [cum prefix_prod]. rewrite <- IH. reflexivity.
Qed.

Lemma prod_seq_S (g : nat -> R) (k : nat) :
  fold_right Rmult 1 (map g (seq 0 (S k)))
  = fold_right Rmult 1 (map g (seq 0 k)) * g k.
Proof.
  rewrite seq_S, map_app, fold_right_app. simpl.
  generalize (map g (seq 0 k)) as l.
  induction l as [|a l IH]; simpl; [lra|].
  rewrite IH. lra.
Qed.

Lemma prefix_prod_seq (g : nat -> R) (n s : nat) (acc : R) :
  acc = fold_right Rmult 1 (map g (seq 0 s)) ->
  prefix_prod acc (map g (seq s n))
  = map (fun k => fold_right Rmult 1 (map g (seq 0 k))) (seq s n).
Proof.
  revert s acc. induction n as [|n IH]; intros s acc Hacc; [reflexivity|].
  cbn [seq map prefix_prod]. rewrite (IH (S s)).
  - now rewrite Hacc.
  - rewrite prod_seq_S. now rewrite Hacc.
Qed.

Lemma zipWith_seq (f : R -> R -> R) (g : nat -> R) (y : list R) (s : nat) :
  zipWith f y (map g (seq s (length y)))
  = map (fun k => f (nth (k - s) y 0) (g k)) (seq s (length y)).
Proof.
  revert s. induction y as [|a y IH]; intros s; [reflexivity|].
  cbn [length seq map zipWith]. rewrite Nat.sub_diag. cbn [nth].
  f_equal. rewrite IH. apply map_ext_in.
  intros k Hk. apply in_seq in Hk.
  replace (k - s)%nat with (S (k - S s)) by lia. reflexivity.
Qed.

Lemma zipWith_map2 (f : R -> R -> R) (a b : nat -> R) (l : list nat) :
  zipWith f (map a l) (map b l) = map (fun k => f (a k) (b k)) l.
Proof.
  induction l as [|k l IH]; simpl; [reflexivity|]. now rewrite IH.
Qed.

Lemma StickBreaking_yl (y : list R) :
  zipWith Rplus y (map (fun k => - ln (INR (length y - k))) (arange (length y)))
  = map (spec_zprime y) (seq 0 (length y)).
Proof.
  unfold arange. rewrite zipWith_seq. apply map_ext.
  intros k. rewrite Nat.sub_0_r. reflexivity.
Qed.

Lemma StickBreaking_jacobian_det_spec (y : list R) :
  StickBreaking_jacobian_det y = scalar (spec_StickBreaking_jacobian y).
Proof.
  unfold StickBreaking_jacobian_det, spec_StickBreaking_jacobian.
  f_equal. f_equal.
  rewrite StickBreaking_yl.
  destruct y as [|a y]; [reflexivity|].
  change (ones (length (firstn 1 (a :: y)))) with [1].
  change ([1] ++ ?l) with (1 :: l).
  unfold cumprod. rewrite removelast_cum.
  set (n := length (a :: y)).
  rewrite (map_map (spec_zprime (a :: y)) (fun t => 1 - inverse_logit t)).
  rewrite (prefix_prod_seq
             (fun k => 1 - inverse_logit (spec_zprime (a :: y) k)) n 0 1)
    by reflexivity.
  rewrite !map_map.
  rewrite zipWith_map2.
  rewrite (zipWith_map2 Rminus
             (fun k => ln (fold_right Rmult 1
                             (map (fun k => 1 - inverse_logit (spec_zprime (a :: y) k))
                                  (seq 0 k)))
                       - log1p (exp (spec_zprime (a :: y) k)))
             (fun k => log1p (exp (- spec_zprime (a :: y) k)))).
  reflexivity.
Qed.

Lemma StickBreaking_backward_sum (y : list R) :
  y <> [] -> vsum (StickBreaking_backward y) = 1.
Proof.
  intros Hy. rewrite (StickBreaking_backward_nonempty y Hy). apply sb_back_sum.
Qed.

Lemma SumTo1_backward_sum (y : list R) : vsum (SumTo1_backward y) = 1.
Proof.
  unfold SumTo1_backward. rewrite vsum_app. unfold vsum; simpl. lra.
Qed.

Lemma sin_3PI : sin (3 * PI) = 0.
Proof.
  replace (3 * PI) with (2 * PI + PI) by lra.
  rewrite neg_sin, sin_2PI. lra.
Qed.

Lemma cos_3PI : cos (3 * PI) = -1.
Proof.
  replace (3 * PI) with (2 * PI + PI) by lra.
  rewrite neg_cos, cos_2PI. lra.
Qed.

Lemma simplex_interior_halves : simplex_interior [1 / 2; 1 / 2].
Proof.
  split.
  - repeat constructor; lra.
  - unfold vsum; simpl. lra.
Qed.

Lemma simplex_interior_one : simplex_interior [1].
Proof.
  split.
  - repeat constructor; lra.
  - unfold vsum; simpl. lra.
Qed.

(** ** The angle function: sine and cosine *)

Lemma sqrt_one_plus_sqr_tan (s c : R) :
  Rsqr s + Rsqr c = 1 -> c <> 0 -> sqrt (1 + Rsqr (s / c)) = Rabs (/ c).
Proof.
  intros H Hc. rewrite <- sqrt_Rsqr_abs. f_equal.
  unfold Rsqr in *.
  transitivity ((s * s + c * c) * (/ c * / c)); [field; exact Hc|].
  rewrite H. ring.
Qed.

Lemma sin_cos_atan_ratio (s c : R) :
  Rsqr s + Rsqr c = 1 -> c <> 0 ->
  sin (atan (s / c)) = s * (c * / Rabs c)
  /\ cos (atan (s / c)) = Rabs c.
Proof.
  intros H Hc. rewrite sin_atan, cos_atan, (sqrt_one_plus_sqr_tan s c H Hc).
  assert (Ha : Rabs c <> 0) by now apply Rabs_no_R0.
  rewrite Rabs_inv. split.
  - unfold Rabs. destruct (Rcase_abs c); field; lra.
  - field. exact Ha.
Qed.

Lemma sin_cos_arctan2 (y : R) :
  sin (arctan2 (sin y) (cos y)) = sin y
  /\ cos (arctan2 (sin y) (cos y)) = cos y.
Proof.
  pose proof (sin2_cos2 y) as H.
  unfold arctan2.
  destruct (total_order_T 0 (cos y)) as [[Hc|Hc]|Hc].
  - destruct (sin_cos_atan_ratio _ _ H) as [Hs Hk]; [lra|].
    rewrite Hs, Hk, Rabs_right by lra. split; [field; lra|reflexivity].
  - rewrite <- Hc in H. unfold Rsqr in H.
    destruct (total_order_T 0 (sin y)) as [[Hs|Hs]|Hs].
    + rewrite sin_PI2, cos_PI2. split; [nra|exact Hc].
    + rewrite <- Hs in H. lra.
    + rewrite sin_neg, cos_neg, sin_PI2, cos_PI2. split; [nra|exact Hc].
  - destruct (sin_cos_atan_ratio _ _ H) as [Hs Hk]; [lra|].
    assert (Ha : Rabs (cos y) = - cos y) by (apply Rabs_left; lra).
    rewrite Ha in Hs, Hk.
    destruct (Rle_dec 0 (sin y)) as [_|_].
    + rewrite neg_sin, neg_cos, Hs, Hk. split; field; lra.
    + pose proof (neg_sin (atan (sin y / cos y) - PI)) as E1.
      pose proof (neg_cos (atan (sin y / cos y) - PI)) as E2.
      replace (atan (sin y / cos y) - PI + PI) with (atan (sin y / cos y))
        in E1, E2 by lra.
      rewrite Hs in E1. rewrite Hk in E2. split.
      * apply Ropp_eq_compat in E1. rewrite Ropp_involutive in E1.
        rewrite <- E1. field. lra.
      * lra.
Qed.

Lemma sin_2PI_shift (x : R) : sin (x + 2 * PI) = sin x.
Proof.
  replace (x + 2 * PI) with (x + PI + PI) by lra.
  rewrite !neg_sin. lra.
Qed.

Lemma cos_2PI_shift (x : R) : cos (x + 2 * PI) = cos x.
Proof.
  replace (x + 2 * PI) with (x + PI + PI) by lra.
  rewrite !neg_cos. lra.
Qed.

(** ** The wrap of an angle *)

Lemma cos_2mPI (m : Z) : cos (2 * IZR m * PI) = 1.
Proof.
  assert (Hn : forall n : nat, cos (2 * INR n * PI) = 1).
  { intros n. rewrite <- (Rplus_0_l (2 * INR n * PI)), cos_period. apply cos_0. }
  destruct (Z_le_gt_dec 0 m) as [Hm|Hm].
  - rewrite <- (Z2Nat.id m Hm), <- INR_IZR_INZ. apply Hn.
  - replace (2 * IZR m * PI) with (- (2 * IZR (- m) * PI))
      by (rewrite opp_IZR; ring).
    rewrite cos_neg.
    assert (Hm' : (0 <= - m)%Z) by lia.
    rewrite <- (Z2Nat.id (- m) Hm'), <- INR_IZR_INZ. apply Hn.
Qed.

Lemma arctan2_wrap (y : R) :
  exists k : Z, arctan2 (sin y) (cos y) = y + 2 * IZR k * PI.
Proof.
  destruct (sin_cos_arctan2 y) as [Hs Hc].
  set (w := arctan2 (sin y) (cos y)) in *.
  assert (Hsd : sin (w - y) = 0) by (rewrite sin_minus, Hs, Hc; ring).
  assert (Hcd : cos (w - y) = 1).
  { rewrite cos_minus, Hs, Hc. pose proof (sin2_cos2 y) as H.
    unfold Rsqr in H. lra. }
  destruct (sin_eq_0_0 _ Hsd) as [k Hk].
  destruct (Z.Even_or_Odd k) as [[m Hm]|[m Hm]].
  - exists m. subst k. rewrite mult_IZR in Hk. lra.
  - exfalso. subst k. rewrite plus_IZR, mult_IZR in Hk.
    replace (w - y) with (2 * IZR m * PI + PI) in Hcd by lra.
    rewrite neg_cos, cos_2mPI in Hcd. lra.
Qed.

Lemma Circular_backward_forward_iff (x : tensor) :
  Circular_backward (Circular_forward x) = x
  <-> tt_all (fun r => - PI < r <= PI) x.
Proof.
  split.
  - intros H. unfold Circular_forward in H. rewrite <- H.
    apply Circular_backward_range.
  - apply Circular_backward_forward.
Qed.

Lemma Circular_backward_wrap (y : R) :
  exists k : Z, Circular_backward (scalar y) = scalar (y + 2 * IZR k * PI).
Proof.
  destruct (arctan2_wrap y) as [k Hk]. exists k.
  unfold Circular_backward. simpl. now rewrite Hk.
Qed.

(** ** The binary64 range: numeric facts *)

Lemma f64_huge_IZR : f64_huge = IZR (2 ^ 1024 - 2 ^ 970).
Proof.
  unfold f64_huge. rewrite minus_IZR.
  change 1024%Z with (Z.of_nat 1024). change 970%Z with (Z.of_nat 970).
  now rewrite <- !pow_IZR.
Qed.

Lemma pow_le_IZR (a b : Z) (n m : nat) :
  (a ^ Z.of_nat n <= b ^ Z.of_nat m)%Z -> IZR a ^ n <= IZR b ^ m.
Proof. intros H. rewrite !pow_IZR. now apply IZR_le. Qed.

Lemma pow3_600_lt_huge : 3 ^ 600 < f64_huge.
Proof.
  rewrite f64_huge_IZR, pow_IZR. apply IZR_lt.
  apply Z.ltb_lt. vm_compute. reflexivity.
Qed.

Lemma pow3_600_lt_pow2_1075 : 3 ^ 600 < 2 ^ 1075.
Proof.
  rewrite !pow_IZR. apply IZR_lt.
  apply Z.ltb_lt. vm_compute. reflexivity.
Qed.


Lemma huge_le_pow32_2000 : f64_huge * 2 ^ 2000 <= 3 ^ 2000.
Proof.
  rewrite f64_huge_IZR, !pow_IZR, <- mult_IZR. apply IZR_le.
  apply Z.leb_le. vm_compute. reflexivity.
Qed.

Lemma pow2_1075_le_pow32_2000 : 2 ^ 1075 * 2 ^ 2000 <= 3 ^ 2000.
Proof.
  rewrite !pow_IZR, <- mult_IZR. apply IZR_le.
  apply Z.leb_le. vm_compute. reflexivity.
Qed.

Lemma f64_tiny_pos : 0 < f64_tiny.
Proof. unfold f64_tiny. apply Rinv_0_lt_compat, pow_lt. lra. Qed.

Lemma f64_tiny_lt_inv : f64_tiny < / 3 ^ 600.
Proof.
  unfold f64_tiny. apply Rinv_lt_contravar.
  - apply Rmult_lt_0_compat; apply pow_lt; lra.
  - apply pow3_600_lt_pow2_1075.
Qed.

Lemma pow3_ge_1 (n : nat) : 1 <= 3 ^ n.
Proof. apply pow_R1_Rle. lra. Qed.

Lemma pow3_mono (n m : nat) : (n <= m)%nat -> 3 ^ n <= 3 ^ m.
Proof. intros H. apply Rle_pow; [lra|exact H]. Qed.

Lemma f64_huge_gt_1 : 1 < f64_huge.
Proof. pose proof (pow3_ge_1 600). pose proof pow3_600_lt_huge. lra. Qed.


Lemma f64_tiny_lt_1 : f64_tiny < 1.
Proof.
  pose proof f64_tiny_lt_inv. pose proof (pow3_ge_1 600).
  assert (/ 3 ^ 600 <= 1).
  { rewrite <- Rinv_1. apply Rinv_le_contravar; lra. }
  lra.
Qed.

(** ** Bounds on the exponential *)

Lemma exp_INR_mult (n : nat) (x : R) : exp (INR n * x) = exp x ^ n.
Proof.
  induction n as [|n IH].
  - simpl. rewrite Rmult_0_l. apply exp_0.
  - rewrite S_INR, Rmult_plus_distr_r, Rmult_1_l, exp_plus, IH. simpl. ring.
Qed.

Lemma exp_le_mono (x y : R) : x <= y -> exp x <= exp y.
Proof.
  intros [H|H]; [left; now apply exp_increasing|right; now rewrite H].
Qed.

Lemma exp_bound (n : nat) (y : R) :
  Rabs y <= INR n -> / 3 ^ n <= exp y <= 3 ^ n.
Proof.
  intros Hy.
  assert (Hn : exp (INR n) <= 3 ^ n).
  { rewrite <- (Rmult_1_r (INR n)), exp_INR_mult.
    apply pow_incr. split; [left; apply exp_pos|apply exp_le_3]. }
  assert (Hy' : - INR n <= y <= INR n).
  { unfold Rabs in Hy. destruct (Rcase_abs y); lra. }
  pose proof (exp_pos (INR n)) as Hp.
  split.
  - apply Rle_trans with (exp (- INR n)); [|apply exp_le_mono; lra].
    rewrite exp_Ropp. apply Rinv_le_contravar; [exact Hp|exact Hn].
  - apply Rle_trans with (exp (INR n)); [apply exp_le_mono; lra|exact Hn].
Qed.

Lemma exp_1000_ge : 3 ^ 2000 <= exp 1000 * 2 ^ 2000.
Proof.
  replace 1000 with (INR 2000 * (1 / 2)).
  2:{ rewrite INR_IZR_INZ. simpl. lra. }
  rewrite exp_INR_mult, <- Rpow_mult_distr.
  apply pow_incr. pose proof (exp_ineq1_le (1 / 2)). lra.
Qed.

Lemma exp_1000_huge : f64_huge <= exp 1000.
Proof.
  pose proof exp_1000_ge as H1. pose proof huge_le_pow32_2000 as H2.
  assert (Hp : 0 < 2 ^ 2000) by (apply pow_lt; lra).
  apply Rmult_le_reg_r with (2 ^ 2000); [exact Hp|lra].
Qed.

Lemma exp_neg_1000_tiny : exp (- (1000)) <= f64_tiny.
Proof.
  rewrite exp_Ropp. unfold f64_tiny.
  pose proof exp_1000_ge as H1. pose proof pow2_1075_le_pow32_2000 as H2.
  assert (Hp : 0 < 2 ^ 2000) by (apply pow_lt; lra).
  apply Rinv_le_contravar; [apply pow_lt; lra|].
  apply Rmult_le_reg_r with (2 ^ 2000); [exact Hp|lra].
Qed.

(** ** The binary64 range: finite results *)

Lemma overflow_id (r : R) :
  - f64_huge < r < f64_huge -> overflow r = Fin r.
Proof.
  intros [H1 H2]. unfold overflow.
  destruct (Rle_dec f64_huge r); [lra|].
  destruct (Rle_dec r (- f64_huge)); [lra|reflexivity].
Qed.

Lemma to_f64_id (r : R) :
  f64_tiny < r < f64_huge -> to_f64 r = Fin r.
Proof.
  intros [H1 H2]. pose proof f64_tiny_pos as Ht. unfold to_f64.
  rewrite Rabs_right by lra.
  destruct (Rle_dec r f64_tiny); [lra|].
  apply overflow_id. lra.
Qed.


Lemma INR_600 : INR 600 = 600.
Proof. rewrite INR_IZR_INZ. reflexivity. Qed.


Lemma exp_in_range (y : R) :
  Rabs y <= 600 -> f64_tiny < exp y < f64_huge.
Proof.
  intros Hy. rewrite <- INR_600 in Hy.
  destruct (exp_bound 600 y Hy) as [H1 H2].
  pose proof f64_tiny_lt_inv. pose proof pow3_600_lt_huge. lra.
Qed.

Lemma f_exp_in_range (y : R) :
  Rabs y <= 600 -> f_exp (Fin y) = Fin (exp y).
Proof. intros Hy. apply to_f64_id. now apply exp_in_range. Qed.

Lemma f_exp_1000 : f_exp (Fin 1000) = PInf.
Proof.
  pose proof exp_1000_huge as H. pose proof f64_tiny_lt_1 as Ht.
  pose proof f64_huge_gt_1 as Hh.
  unfold f_exp, to_f64, overflow.
  rewrite Rabs_right by (left; apply exp_pos).
  destruct (Rle_dec (exp 1000) f64_tiny); [lra|].
  destruct (Rle_dec f64_huge (exp 1000)); [reflexivity|lra].
Qed.

Lemma f_exp_neg_1000 : f_exp (Fin (- (1000))) = Fin 0.
Proof.
  pose proof exp_neg_1000_tiny as H.
  unfold f_exp, to_f64.
  rewrite Rabs_right by (left; apply exp_pos).
  destruct (Rle_dec (exp (- (1000))) f64_tiny); [reflexivity|lra].
Qed.

(** ** Log in the binary64 range *)

Lemma f_log_abs_exp (r : R) :
  Rabs r <= 600 -> f_log (f_abs (to_f64 (exp r))) = Fin r.
Proof.
  intros Hr. rewrite (to_f64_id _ (exp_in_range r Hr)).
  pose proof (exp_pos r) as He. unfold f_abs, f_log.
  rewrite Rabs_right by lra.
  destruct (Rlt_dec 0 (exp r)); [|lra].
  now rewrite ln_exp.
Qed.

Lemma Log_jacobian_det_f64_eq (y : tensor) :
  Log_jacobian_det_f64 y
  = ftmap f_log (ftmap f_abs
      (ft_reshape (map to_f64 (map exp (tt_flatten y))) (tt_shape y))).
Proof.
  unfold Log_jacobian_det_f64, ElemwiseTransform_jacobian_det_f64.
  change Log_backward with (tmap exp).
  rewrite (gradient_elemwise exp exp); [reflexivity|].
  apply tt_all_forall. exact derivable_pt_lim_exp.
Qed.

Lemma Log_jacobian_det_f64_in_range (y : tensor) :
  tt_all (fun r => Rabs r <= 600) y ->
  Log_jacobian_det_f64 y = f_of_tensor y.
Proof.
  intros Hy. rewrite Log_jacobian_det_f64_eq.
  destruct y as [r|v]; simpl in *.
  - f_equal. now apply f_log_abs_exp.
  - f_equal. rewrite !map_map. apply map_ext_in.
    intros r Hr. apply f_log_abs_exp.
    rewrite Forall_forall in Hy. now apply Hy.
Qed.

Lemma Log_jacobian_det_f64_1000 :
  Log_jacobian_det_f64 (scalar 1000) = fscalar PInf.
Proof.
  rewrite Log_jacobian_det_f64_eq. simpl.
  change (to_f64 (exp 1000)) with (f_exp (Fin 1000)).
  now rewrite f_exp_1000.
Qed.

Lemma Log_jacobian_det_f64_neg_1000 :
  Log_jacobian_det_f64 (scalar (- (1000))) = fscalar NInf.
Proof.
  rewrite Log_jacobian_det_f64_eq. simpl.
  change (to_f64 (exp (- (1000)))) with (f_exp (Fin (- (1000)))).
  rewrite f_exp_neg_1000. unfold f_abs, f_log. rewrite Rabs_R0.
  destruct (Rlt_dec 0 0); [lra|].
  destruct (Req_EM_T 0 0); [reflexivity|lra].
Qed.

(** ** LogOdds and Interval in the binary64 range *)





Lemma f_sigmoid_1000 : f_sigmoid (Fin 1000) = Fin 1.
Proof.
  pose proof f64_huge_gt_1 as Hh. pose proof f64_tiny_lt_1 as Ht.
  unfold f_sigmoid. simpl f_neg. rewrite f_exp_neg_1000.
  unfold f_add. rewrite overflow_id by lra.
  unfold f_div. destruct (Req_EM_T (1 + 0) 0); [lra|].
  rewrite to_f64_id.
  - f_equal. field.
  - replace (1 / (1 + 0)) with 1 by field. lra.
Qed.

Lemma f_logit_one : f_logit (Fin 1) = PInf.
Proof.
  pose proof f64_huge_gt_1 as Hh.
  unfold f_logit, f_sub, f_neg, f_add. rewrite overflow_id by lra.
  unfold f_div. destruct (Req_EM_T (1 + - (1)) 0); [|lra].
  destruct (Req_EM_T 1 0); [lra|].
  unfold f_inf_of. destruct (Rlt_dec 0 1); [reflexivity|lra].
Qed.




(** ** Round trips in the binary64 range *)

Lemma ftmap_of_tensor_id (P : R -> Prop) (f : f64 -> f64) (y : tensor) :
  (forall r, P r -> f (Fin r) = Fin r) -> tt_all P y ->
  ftmap f (f_of_tensor y) = f_of_tensor y.
Proof.
  intros Hf Hy. destruct y as [r|v]; simpl in *.
  - now rewrite Hf.
  - f_equal. rewrite map_map. apply map_ext_in. intros r Hr.
    apply Hf. rewrite Forall_forall in Hy. now apply Hy.
Qed.

Lemma ftmap_ftmap (f g : f64 -> f64) (t : ftensor) :
  ftmap g (ftmap f t) = ftmap (fun v => g (f v)) t.
Proof.
  destruct t as [v|l]; simpl; [reflexivity|]. now rewrite map_map.
Qed.

Lemma INR_20 : INR 20 = 20.
Proof. rewrite INR_IZR_INZ. reflexivity. Qed.

Lemma exp_bound_20 (y : R) :
  Rabs y <= 20 -> / 3 ^ 20 <= exp y <= 3 ^ 20.
Proof. intros Hy. apply exp_bound. now rewrite INR_20. Qed.

Lemma Rabs_le_600_of_20 (y : R) : Rabs y <= 20 -> Rabs y <= 600.
Proof. lra. Qed.

Lemma one_plus_pow3_20 : 1 + 3 ^ 20 <= 3 ^ 600.
Proof.
  pose proof (pow3_ge_1 20) as H.
  apply Rle_trans with (3 ^ 21); [simpl; lra|apply pow3_mono; lia].
Qed.

Lemma f_log_exp_in_range (y : R) :
  Rabs y <= 600 -> f_log (f_exp (Fin y)) = Fin y.
Proof.
  intros Hy. rewrite (f_exp_in_range y Hy). unfold f_log.
  destruct (Rlt_dec 0 (exp y)) as [_|H]; [now rewrite ln_exp|].
  pose proof (exp_pos y). lra.
Qed.

Lemma f_sigmoid_in_range (y : R) :
  Rabs y <= 20 -> f_sigmoid (Fin y) = Fin (1 / (1 + exp (- y))).
Proof.
  intros Hy.
  assert (Hy' : Rabs (- y) <= 20) by now rewrite Rabs_Ropp.
  destruct (exp_bound_20 _ Hy') as [_ He]. pose proof (exp_pos (- y)) as Hp.
  pose proof one_plus_pow3_20 as H1. pose proof pow3_600_lt_huge as Hh.
  pose proof f64_tiny_lt_inv as Ht.
  unfold f_sigmoid. cbn [f_neg].
  rewrite (f_exp_in_range (- y)) by lra.
  unfold f_add. rewrite overflow_id by lra.
  unfold f_div. destruct (Req_EM_T (1 + exp (- y)) 0); [lra|].
  apply to_f64_id. split.
  - apply Rlt_le_trans with (/ 3 ^ 600); [exact Ht|].
    unfold Rdiv. rewrite Rmult_1_l. apply Rinv_le_contravar; lra.
  - apply Rle_lt_trans with 1; [|pose proof f64_huge_gt_1; lra].
    apply Rmult_le_reg_r with (1 + exp (- y)); [lra|].
    unfold Rdiv. rewrite Rmult_assoc, Rinv_l by lra. lra.
Qed.

Lemma f_logit_sigmoid_in_range (y : R) :
  Rabs y <= 20 -> f_logit (f_sigmoid (Fin y)) = Fin y.
Proof.
  intros Hy. rewrite (f_sigmoid_in_range y Hy).
  change (1 / (1 + exp (- y))) with (sigmoid y).
  pose proof (sigmoid_pos y) as H0. pose proof (sigmoid_lt_1 y) as H1.
  pose proof f64_huge_gt_1 as Hh. pose proof (exp_pos y) as Hp.
  unfold f_logit, f_sub, f_neg, f_add. rewrite overflow_id by lra.
  unfold f_div. destruct (Req_EM_T (1 + - sigmoid y) 0); [lra|].
  replace (sigmoid y / (1 + - sigmoid y)) with (exp y).
  2:{ change (1 + - sigmoid y) with (1 - sigmoid y).
      rewrite one_minus_sigmoid, sigmoid_exp. field. lra. }
  change (to_f64 (exp y)) with (f_exp (Fin y)).
  apply f_log_exp_in_range. lra.
Qed.

Lemma interval_bounds_huge : 8 * 2 ^ 500 * (3 * 3 ^ 20) < f64_huge.
Proof.
  rewrite f64_huge_IZR, !pow_IZR, <- !mult_IZR. apply IZR_lt.
  apply Z.ltb_lt. vm_compute. reflexivity.
Qed.

Lemma interval_bounds_tiny : 2 ^ 500 * (3 ^ 20 * (3 * 3 ^ 20)) < 2 ^ 1075.
Proof.
  rewrite !pow_IZR, <- !mult_IZR. apply IZR_lt.
  apply Z.ltb_lt. vm_compute. reflexivity.
Qed.


Lemma Interval_f64_elem_round_trip (a b y : R) :
  / 2 ^ 500 <= b - a -> b - a <= 2 ^ 500 ->
  Rabs a <= 4 * (b - a) -> Rabs b <= 4 * (b - a) -> Rabs y <= 20 ->
  f_log (f_div
           (f_sub (f_add (f_div (f_mul (f_sub (Fin b) (Fin a)) (f_exp (Fin y)))
                                (f_add (Fin 1) (f_exp (Fin y))))
                         (Fin a))
                  (Fin a))
           (f_sub (Fin b)
                  (f_add (f_div (f_mul (f_sub (Fin b) (Fin a)) (f_exp (Fin y)))
                                (f_add (Fin 1) (f_exp (Fin y))))
                         (Fin a))))
  = Fin y.
Proof.
  intros Hw0 Hw1 Ha Hb Hy.
  pose proof interval_bounds_huge as Hhuge.
  pose proof interval_bounds_tiny as Htiny.
  set (W := 2 ^ 500) in *. set (E := 3 ^ 20) in *.
  assert (HW : 1 <= W) by (apply pow_R1_Rle; lra).
  assert (HE : 1 <= E) by apply pow3_ge_1.
  destruct (exp_bound_20 y Hy) as [He0 He1]. fold E in He0, He1.
  pose proof (exp_pos y) as Hp.
  set (P := W * E) in *.
  assert (HPW : W <= P) by (unfold P; nra).
  assert (HPE : E <= P) by (unfold P; nra).
  replace (8 * W * (3 * E)) with (24 * P) in Hhuge by (unfold P; ring).
  assert (HiP : 0 < / P) by (apply Rinv_0_lt_compat; lra).
  assert (HiPle : / P <= 1).
  { rewrite <- Rinv_1. apply Rinv_le_contravar; lra. }
  set (T := / (P * (3 * E))).
  assert (HT : f64_tiny < T).
  { unfold T, f64_tiny. apply Rinv_lt_contravar.
    - apply Rmult_lt_0_compat; [nra|apply pow_lt; lra].
    - replace (P * (3 * E)) with (W * (E * (3 * E))) by (unfold P; ring).
      exact Htiny. }
  assert (HTP : T <= / P).
  { unfold T. apply Rinv_le_contravar; [lra|nra]. }
  assert (Ha' : - (4 * (b - a)) <= a <= 4 * (b - a)).
  { unfold Rabs in Ha. destruct (Rcase_abs a); lra. }
  assert (Hb' : - (4 * (b - a)) <= b <= 4 * (b - a)).
  { unfold Rabs in Hb. destruct (Rcase_abs b); lra. }
  assert (Hw : / W <= b + - a <= W) by lra.
  assert (HiW : 0 < / W) by (apply Rinv_0_lt_compat; lra).
  assert (HiE : 0 < / E) by (apply Rinv_0_lt_compat; lra).
  (* the width *)
  assert (E1 : f_sub (Fin b) (Fin a) = Fin (b + - a)).
  { unfold f_sub, f_neg, f_add. apply overflow_id. lra. }
  (* the product *)
  set (p := (b + - a) * exp y).
  assert (Hpe : / P <= p <= P).
  { unfold p, P. split.
    - rewrite Rinv_mult. apply Rmult_le_compat; lra.
    - apply Rmult_le_compat; lra. }
  assert (E2 : f_mul (Fin (b + - a)) (f_exp (Fin y)) = Fin p).
  { rewrite (f_exp_in_range y) by lra. unfold f_mul.
    apply to_f64_id. fold p. lra. }
  assert (E3 : f_add (Fin 1) (f_exp (Fin y)) = Fin (1 + exp y)).
  { rewrite (f_exp_in_range y) by lra. unfold f_add.
    apply overflow_id. lra. }
  set (q := p / (1 + exp y)).
  assert (Hq : T <= q <= b - a).
  { unfold q. split.
    - unfold T. rewrite Rinv_mult. unfold Rdiv.
      apply Rmult_le_compat; [lra| |lra|].
      + left. apply Rinv_0_lt_compat. lra.
      + apply Rinv_le_contravar; lra.
    - apply Rmult_le_reg_r with (1 + exp y); [lra|].
      unfold Rdiv. rewrite Rmult_assoc, Rinv_l by lra.
      unfold p. nra. }
  assert (HT0 : 0 < T).
  { unfold T. apply Rinv_0_lt_compat. nra. }
  assert (E4 : f_div (Fin p) (Fin (1 + exp y)) = Fin q).
  { unfold f_div. destruct (Req_EM_T (1 + exp y) 0); [lra|].
    apply to_f64_id. fold q. lra. }
  assert (E5 : f_add (Fin q) (Fin a) = Fin (q + a)).
  { unfold f_add. apply overflow_id. lra. }
  rewrite E1, E2, E3, E4, E5.
  assert (E6 : f_sub (Fin (q + a)) (Fin a) = Fin (q + a + - a)).
  { unfold f_sub, f_neg, f_add. apply overflow_id. lra. }
  assert (E7 : f_sub (Fin b) (Fin (q + a)) = Fin (b + - (q + a))).
  { unfold f_sub, f_neg, f_add. apply overflow_id. lra. }
  rewrite E6, E7.
  assert (Hr : b + - (q + a) = (b - a) / (1 + exp y)).
  { unfold q, p. field. lra. }
  assert (Hr0 : 0 < b + - (q + a)).
  { rewrite Hr. apply Rdiv_lt_0_compat; lra. }
  unfold f_div. destruct (Req_EM_T (b + - (q + a)) 0); [lra|].
  replace ((q + a + - a) / (b + - (q + a))) with (exp y).
  2:{ rewrite Hr. unfold q, p. field. split; lra. }
  change (to_f64 (exp y)) with (f_exp (Fin y)).
  apply f_log_exp_in_range. lra.
Qed.

(** * Properties stated by the specification *)

(** C1.  The log-density of a transformed distribution built from a base
    distribution [d] and a transform [t] is, at every [y], the base
    log-density at [backward t y] plus [jacobian_det t y]. *)
Theorem C1_logp_formula :
  forall (X Y : Type) (d : Distribution X) (t : Transform X Y) (y : Y),
    TransformedDistribution_logp (TransformedDistribution_init d t) y
    = tt_add (logp d (backward t y)) (jacobian_det t y).
Proof.
  intros X Y d t y. unfold TransformedDistribution_logp, TransformedDistribution_init.
  reflexivity.
Qed.

(** C2, as stated, fails twice.  For [Circular] the angle [2 * PI] is mapped
    back to [0], so neither composition of [forward] and [backward] is the
    identity there.  For [LogOdds], in the binary64 range [backward] maps
    [1000] to [1], on the boundary of the domain, and [forward] of that is
    infinite.  For [StickBreaking] the one-point simplex [[1]] is mapped to
    the empty vector and the empty vector back to itself. *)
Lemma C2_counterexample :
  (Circular_backward (Circular_forward (scalar (2 * PI))) = scalar 0
   /\ Circular_forward (Circular_backward (scalar (2 * PI))) = scalar 0
   /\ scalar 0 <> scalar (2 * PI))
  /\ (LogOdds_backward_f64 (fscalar (Fin 1000)) = fscalar (Fin 1)
      /\ LogOdds_forward_f64 (LogOdds_backward_f64 (fscalar (Fin 1000)))
         = fscalar PInf)
  /\ (simplex_interior [1]
      /\ StickBreaking_forward [1] = Some []
      /\ StickBreaking_backward [] = []).
Proof.
  split; [|split].
  - assert (H : arctan2 (sin (2 * PI)) (cos (2 * PI)) = 0).
    { rewrite sin_2PI, cos_2PI. apply arctan2_0_pos. lra. }
    unfold Circular_forward, Circular_backward. simpl. rewrite H.
    repeat split.
    intros E. injection E as E. pose proof PI_RGT_0. lra.
  - unfold LogOdds_forward_f64, LogOdds_backward_f64. cbn [ftmap].
    rewrite f_sigmoid_1000, f_logit_one. split; reflexivity.
  - split; [exact simplex_interior_one|]. split; reflexivity.
Qed.

(** C2, amended.  Up to rounding, [backward] after [forward] is the identity
    on tensors with entries strictly inside the domain, for [Log], [LogOdds],
    [Interval a b] with [a < b], and for [StickBreaking] on interior points
    of the simplex with at least two coordinates.  Up to rounding, [forward]
    after [backward] is the identity on entries of bounded size.  For [Log],
    [LogOdds] and [Interval] this is proved in the binary64 range: for
    entries of magnitude at most [600] for [Log]; at most [20] for [LogOdds]
    and for [Interval a b] with a width [b - a] between [2 ^ - 500] and
    [2 ^ 500] and bounds no larger than four times the width.  For
    [StickBreaking] it is proved in the real-number reading, which needs no
    bound, and stated for non-empty vectors of at most [30] entries of
    magnitude at most [16], where the binary64 evaluation stays clear of the
    ends of the range of [sigmoid].  For [Circular] each round trip is the
    identity exactly on the angles in [(- PI, PI]]; on every angle [backward]
    returns the angle of [(- PI, PI]] that differs from it by a multiple of
    [2 * PI]. *)
Theorem C2_round_trip :
  (forall x, tt_all (fun r => 0 < r) x -> Log_backward (Log_forward x) = x)
  /\ (forall x, tt_all (fun r => 0 < r < 1) x ->
        LogOdds_backward (LogOdds_forward x) = x)
  /\ (forall a b x, a < b -> tt_all (fun r => a < r < b) x ->
        Interval_backward a b (Interval_forward a b x) = x)
  /\ (forall x, simplex_interior x -> (2 <= length x)%nat ->
        exists y, StickBreaking_forward x = Some y
                  /\ StickBreaking_backward y = x)
  /\ (forall y, tt_all (fun r => Rabs r <= 600) y ->
        Log_forward_f64 (Log_backward_f64 (f_of_tensor y)) = f_of_tensor y)
  /\ (forall y, tt_all (fun r => Rabs r <= 20) y ->
        LogOdds_forward_f64 (LogOdds_backward_f64 (f_of_tensor y))
        = f_of_tensor y)
  /\ (forall a b y,
        / 2 ^ 500 <= b - a -> b - a <= 2 ^ 500 ->
        Rabs a <= 4 * (b - a) -> Rabs b <= 4 * (b - a) ->
        tt_all (fun r => Rabs r <= 20) y ->
        Interval_forward_f64 a b (Interval_backward_f64 a b (f_of_tensor y))
        = f_of_tensor y)
  /\ (forall y, y <> [] -> (length y <= 30)%nat ->
        Forall (fun r => Rabs r <= 16) y ->
        StickBreaking_forward (StickBreaking_backward y) = Some y)
  /\ (forall x, Circular_backward (Circular_forward x) = x
                <-> tt_all (fun r => - PI < r <= PI) x)
  /\ (forall y, Circular_forward (Circular_backward y) = y
                <-> tt_all (fun r => - PI < r <= PI) y)
  /\ (forall y, tt_all (fun r => - PI < r <= PI) (Circular_backward y))
  /\ (forall y : R, exists k : Z,
        Circular_backward (scalar y) = scalar (y + 2 * IZR k * PI)).
Proof.
  split; [exact Log_backward_forward|].
  split; [exact LogOdds_backward_forward|].
  split; [exact Interval_backward_forward|].
  split.
  { intros x Hx Hlen.
    destruct (StickBreaking_backward_forward x Hx Hlen) as [y [Hf [_ Hb]]].
    now exists y. }
  split.
  { intros y Hy. unfold Log_forward_f64, Log_backward_f64.
    rewrite ftmap_ftmap.
    now apply (ftmap_of_tensor_id _ _ _ f_log_exp_in_range). }
  split.
  { intros y Hy. unfold LogOdds_forward_f64, LogOdds_backward_f64.
    rewrite ftmap_ftmap.
    now apply (ftmap_of_tensor_id _ _ _ f_logit_sigmoid_in_range). }
  split.
  { intros a b y Hw0 Hw1 Ha Hb Hy.
    unfold Interval_forward_f64, Interval_backward_f64.
    rewrite ftmap_ftmap.
    apply (ftmap_of_tensor_id (fun r => Rabs r <= 20)); [|exact Hy].
    intros r Hr. now apply Interval_f64_elem_round_trip. }
  split; [intros y Hy _ _; now apply StickBreaking_forward_backward|].
  split; [exact Circular_backward_forward_iff|].
  split.
  { intros y. unfold Circular_forward.
    apply (Circular_backward_forward_iff y). }
  split; [exact Circular_backward_range|].
  exact Circular_backward_wrap.
Qed.

Lemma C2_round_trip_witness :
  (tt_all (fun r => 0 < r) (scalar 1)
   /\ Log_backward (Log_forward (scalar 1)) = scalar 1)
  /\ (tt_all (fun r => 0 < r < 1) (vector [1 / 2; 1 / 4])
      /\ LogOdds_backward (LogOdds_forward (vector [1 / 2; 1 / 4]))
         = vector [1 / 2; 1 / 4])
  /\ (0 < 1 /\ tt_all (fun r => 0 < r < 1) (scalar (1 / 2))
      /\ Interval_backward 0 1 (Interval_forward 0 1 (scalar (1 / 2)))
         = scalar (1 / 2))
  /\ (simplex_interior [1 / 2; 1 / 2] /\ (2 <= length [1 / 2; 1 / 2])%nat
      /\ exists y, StickBreaking_forward [1 / 2; 1 / 2] = Some y
                   /\ StickBreaking_backward y = [1 / 2; 1 / 2])
  /\ (tt_all (fun r => Rabs r <= 600) (scalar 3)
      /\ Log_forward_f64 (Log_backward_f64 (f_of_tensor (scalar 3)))
         = f_of_tensor (scalar 3))
  /\ (tt_all (fun r => Rabs r <= 20) (scalar 3)
      /\ LogOdds_forward_f64 (LogOdds_backward_f64 (f_of_tensor (scalar 3)))
         = f_of_tensor (scalar 3))
  /\ (/ 2 ^ 500 <= 1 - 0 /\ 1 - 0 <= 2 ^ 500
      /\ Rabs 0 <= 4 * (1 - 0) /\ Rabs 1 <= 4 * (1 - 0)
      /\ tt_all (fun r => Rabs r <= 20) (scalar 3)
      /\ Interval_forward_f64 0 1
           (Interval_backward_f64 0 1 (f_of_tensor (scalar 3)))
         = f_of_tensor (scalar 3))
  /\ ([3] <> [] /\ (length [3] <= 30)%nat
      /\ Forall (fun r => Rabs r <= 16) [3]
      /\ StickBreaking_forward (StickBreaking_backward [3]) = Some [3])
  /\ (tt_all (fun r => - PI < r <= PI) (scalar 0)
      /\ Circular_backward (Circular_forward (scalar 0)) = scalar 0).
Proof.
  destruct C2_round_trip
    as (HL & HO & HI & HS & HL' & HO' & HI' & HS' & HC & _).
  assert (H01 : 0 < 1) by lra.
  assert (Hpos : tt_all (fun r => 0 < r) (scalar 1)) by (simpl; lra).
  assert (Hunit : tt_all (fun r => 0 < r < 1) (vector [1 / 2; 1 / 4])).
  { simpl. repeat constructor; lra. }
  assert (Hhalf : tt_all (fun r => 0 < r < 1) (scalar (1 / 2))) by (simpl; lra).
  assert (Hlen : (2 <= length [1 / 2; 1 / 2])%nat) by (simpl; lia).
  assert (R3 : Rabs 3 = 3) by (apply Rabs_right; lra).
  assert (R1 : Rabs 1 = 1) by (apply Rabs_right; lra).
  assert (H600 : tt_all (fun r => Rabs r <= 600) (scalar 3))
    by (simpl; rewrite R3; lra).
  assert (H20 : tt_all (fun r => Rabs r <= 20) (scalar 3))
    by (simpl; rewrite R3; lra).
  assert (Hp500 : 1 <= 2 ^ 500) by (apply pow_R1_Rle; lra).
  assert (Hw0 : / 2 ^ 500 <= 1 - 0).
  { replace (1 - 0) with (/ 1) by (rewrite Rinv_1; lra).
    apply Rinv_le_contravar; lra. }
  assert (Hw1 : 1 - 0 <= 2 ^ 500) by lra.
  assert (Ha : Rabs 0 <= 4 * (1 - 0)) by (rewrite Rabs_R0; lra).
  assert (Hb : Rabs 1 <= 4 * (1 - 0)) by (rewrite R1; lra).
  assert (Hne : [3] <> (@nil R)) by discriminate.
  assert (Hl30 : (length [3] <= 30)%nat) by (simpl; lia).
  assert (H16 : Forall (fun r => Rabs r <= 16) [3]).
  { repeat constructor. rewrite R3. lra. }
  assert (Hang : tt_all (fun r => - PI < r <= PI) (scalar 0)).
  { simpl. pose proof PI_RGT_0. lra. }
  split; [exact (conj Hpos (HL _ Hpos))|].
  split; [exact (conj Hunit (HO _ Hunit))|].
  split; [exact (conj H01 (conj Hhalf (HI 0 1 _ H01 Hhalf)))|].
  split; [exact (conj simplex_interior_halves
                   (conj Hlen (HS _ simplex_interior_halves Hlen)))|].
  split; [exact (conj H600 (HL' _ H600))|].
  split; [exact (conj H20 (HO' _ H20))|].
  split; [exact (conj Hw0 (conj Hw1 (conj Ha (conj Hb
                   (conj H20 (HI' 0 1 (scalar 3) Hw0 Hw1 Ha Hb H20))))))|].
  split; [exact (conj Hne (conj Hl30 (conj H16 (HS' _ Hne Hl30 H16))))|].
  exact (conj Hang (proj2 (HC (scalar 0)) Hang)).
Defined.

(** C3.  For every vector [y], [StickBreaking.jacobian_det y] is the sum over
    [k < length y] of [ln S_k - ln (1 + exp z'_k) - ln (1 + exp (- z'_k))],
    with [z'_k = y_k - ln (length y - k)] and [S_k] the product of
    [1 - sigmoid z'_j] over [j < k]. *)
Theorem C3_stick_breaking_jacobian_closed_form :
  forall y : list R,
    StickBreaking_jacobian_det y = scalar (spec_StickBreaking_jacobian y).
Proof.
  exact StickBreaking_jacobian_det_spec.
Qed.

(** C4.  On the one-point simplex [[1]] the reconstruction is lost:
    [StickBreaking.forward] returns the empty vector, of length [K - 1 = 0],
    and [StickBreaking.backward] of the empty vector is empty again, so it is
    not [[1]] and its entries sum to [0].  On every interior point of the
    simplex with at least two coordinates, [forward] returns a vector of
    length [K - 1] from which [backward] reconstructs the point, with sum
    [1]. *)
Theorem C4_stick_breaking_validity :
  (simplex_interior [1]
   /\ StickBreaking_forward [1] = Some []
   /\ StickBreaking_backward [] = []
   /\ vsum (StickBreaking_backward []) = 0)
  /\ (forall x, simplex_interior x -> (2 <= length x)%nat ->
        exists y, StickBreaking_forward x = Some y
                  /\ length y = (length x - 1)%nat
                  /\ StickBreaking_backward y = x
                  /\ vsum (StickBreaking_backward y) = 1).
Proof.
  split.
  - split; [exact simplex_interior_one|]. repeat split.
  - intros x Hx Hlen.
    destruct (StickBreaking_backward_forward x Hx Hlen) as [y [Hf [Hl Hb]]].
    exists y. repeat split; try assumption.
    rewrite Hb. apply Hx.
Qed.

Lemma C4_stick_breaking_validity_witness :
  simplex_interior [1 / 2; 1 / 2] /\ (2 <= length [1 / 2; 1 / 2])%nat
  /\ exists y, StickBreaking_forward [1 / 2; 1 / 2] = Some y
               /\ length y = (length [1 / 2; 1 / 2] - 1)%nat
               /\ StickBreaking_backward y = [1 / 2; 1 / 2]
               /\ vsum (StickBreaking_backward y) = 1.
Proof.
  assert (Hlen : (2 <= length [1 / 2; 1 / 2])%nat) by (simpl; lia).
  split; [exact simplex_interior_halves|]. split; [exact Hlen|].
  exact (proj2 C4_stick_breaking_validity _ simplex_interior_halves Hlen).
Defined.

(** C5.  For an elementwise [backward] with derivative [b'], the default
    [jacobian_det] is, entry by entry, [ln |b' y_i|].  For [LogOdds] and for
    [Interval a b] it is the logarithm of the absolute value of the analytic
    derivative of their [backward] maps, [sigmoid t * (1 - sigmoid t)] and
    [(b - a) * (sigmoid t * (1 - sigmoid t))]. *)
Theorem C5_default_jacobian_is_pointwise_derivative :
  (forall (b b' : R -> R) (y : tensor),
      (forall t, derivable_pt_lim b t (b' t)) ->
      ElemwiseTransform_jacobian_det (tmap b) y
      = tmap (fun t => ln (Rabs (b' t))) y)
  /\ (forall t, derivable_pt_lim inverse_logit t (sigmoid t * (1 - sigmoid t)))
  /\ (forall y, LogOdds_jacobian_det y
                = tmap (fun t => ln (Rabs (sigmoid t * (1 - sigmoid t)))) y)
  /\ (forall a b t,
        derivable_pt_lim (fun x => (b - a) * exp x / (1 + exp x) + a) t
                         ((b - a) * (sigmoid t * (1 - sigmoid t))))
  /\ (forall a b y,
        Interval_jacobian_det a b y
        = tmap (fun t => ln (Rabs ((b - a) * (sigmoid t * (1 - sigmoid t))))) y).
Proof.
  split.
  { intros b b' y Hb. apply ElemwiseTransform_jacobian_det_elemwise.
    now apply tt_all_forall. }
  split; [exact derivable_pt_lim_sigmoid|].
  split.
  { intros y. unfold LogOdds_jacobian_det.
    apply (ElemwiseTransform_jacobian_det_elemwise inverse_logit
             (fun t => sigmoid t * (1 - sigmoid t))).
    apply tt_all_forall. exact derivable_pt_lim_sigmoid. }
  split; [exact derivable_pt_lim_Interval|].
  intros a b y. unfold Interval_jacobian_det.
  apply (ElemwiseTransform_jacobian_det_elemwise
           (fun x => (b - a) * exp x / (1 + exp x) + a)
           (fun t => (b - a) * (sigmoid t * (1 - sigmoid t)))).
  apply tt_all_forall. intros t. apply derivable_pt_lim_Interval.
Qed.

Lemma C5_default_jacobian_is_pointwise_derivative_witness :
  (forall t, derivable_pt_lim exp t (exp t))
  /\ ElemwiseTransform_jacobian_det (tmap exp) (vector [0; 1])
     = tmap (fun t => ln (Rabs (exp t))) (vector [0; 1]).
Proof.
  split; [exact derivable_pt_lim_exp|].
  exact (proj1 C5_default_jacobian_is_pointwise_derivative
           exp exp (vector [0; 1]) derivable_pt_lim_exp).
Defined.

(** C6, as stated, fails outside the binary64 range of [exp]: at [1000] the
    derivative [exp 1000] is infinite and so is its logarithm, and at
    [- 1000] it is zero and its logarithm is minus infinity. *)
Lemma C6_counterexample :
  Log_jacobian_det_f64 (scalar 1000) = fscalar PInf
  /\ Log_jacobian_det_f64 (scalar (- (1000))) = fscalar NInf
  /\ fscalar PInf <> f_of_tensor (scalar 1000)
  /\ fscalar NInf <> f_of_tensor (scalar (- (1000))).
Proof.
  split; [exact Log_jacobian_det_f64_1000|].
  split; [exact Log_jacobian_det_f64_neg_1000|].
  split; discriminate.
Qed.

(** C6, amended.  For every [y] with entries of magnitude at most [600], the
    [jacobian_det] of the [Log] transform, given by the default elementwise
    mechanism on [backward y = exp y], is [y] in the binary64 range (up to
    rounding). *)
Theorem C6_log_jacobian_is_identity :
  forall y : tensor,
    tt_all (fun r => Rabs r <= 600) y ->
    Log_jacobian_det_f64 y = f_of_tensor y.
Proof.
  exact Log_jacobian_det_f64_in_range.
Qed.

Lemma C6_log_jacobian_is_identity_witness :
  tt_all (fun r => Rabs r <= 600) (vector [0; 5])
  /\ Log_jacobian_det_f64 (vector [0; 5]) = f_of_tensor (vector [0; 5]).
Proof.
  assert (H : tt_all (fun r => Rabs r <= 600) (vector [0; 5])).
  { simpl. repeat constructor.
    - rewrite Rabs_R0. lra.
    - rewrite Rabs_right; lra. }
  split; [exact H|].
  exact (C6_log_jacobian_is_identity _ H).
Defined.

(** C7.  [SumTo1.jacobian_det] is [0] at every input, while [SumTo1.forward]
    drops the last coordinate of its argument. *)
Theorem C7_sum_to_1_jacobian_zero :
  (forall x : list R, SumTo1_jacobian_det x = scalar 0)
  /\ (forall x : list R, jacobian_det sum_to_1 x = scalar 0)
  /\ (forall (x0 : list R) (xl : R), SumTo1_forward (x0 ++ [xl]) = x0).
Proof.
  split; [reflexivity|]. split; [reflexivity|].
  intros x0 xl. unfold SumTo1_forward. apply removelast_last.
Qed.

(** C8.  [Circular.backward] wraps its input into [(- PI, PI]]: every entry
    of the result lies in that interval, differs from the entry it comes from
    by a multiple of [2 * PI], and has the same sine and cosine.  It maps
    [3 * PI] to [PI] and [0] to [0]. *)
Theorem C8_circular_wrap :
  (forall y, tt_all (fun r => - PI < r <= PI) (Circular_backward y))
  /\ (forall y : R, exists k : Z,
        Circular_backward (scalar y) = scalar (y + 2 * IZR k * PI))
  /\ (forall y, tmap sin (Circular_backward y) = tmap sin y
                /\ tmap cos (Circular_backward y) = tmap cos y)
  /\ Circular_backward (scalar (3 * PI)) = scalar PI
  /\ Circular_backward (scalar 0) = scalar 0.
Proof.
  split; [exact Circular_backward_range|].
  split; [exact Circular_backward_wrap|].
  split.
  { intros y. unfold Circular_backward. rewrite !tmap_tmap.
    split; apply tmap_ext; intros r; apply sin_cos_arctan2. }
  split.
  - unfold Circular_backward. simpl.
    rewrite sin_3PI, cos_3PI. f_equal. apply arctan2_0_neg. lra.
  - unfold Circular_backward. simpl.
    rewrite sin_0, cos_0. f_equal. apply arctan2_0_pos. lra.
Qed.

(** C9.  The entries of [SumTo1.backward y] sum to [1] for every [y], and so
    do the entries of [StickBreaking.backward y] for every non-empty [y]; for
    the empty vector [StickBreaking.backward] returns the empty vector, of
    sum [0]. *)
Theorem C9_backward_sums_to_one :
  (forall y, vsum (SumTo1_backward y) = 1)
  /\ (forall y, y <> [] -> vsum (StickBreaking_backward y) = 1)
  /\ StickBreaking_backward [] = []
  /\ vsum (StickBreaking_backward []) = 0.
Proof.
  split; [exact SumTo1_backward_sum|].
  split; [exact StickBreaking_backward_sum|].
  split; reflexivity.
Qed.

Lemma C9_backward_sums_to_one_witness :
  [3; - 2] <> [] /\ vsum (StickBreaking_backward [3; - 2]) = 1.
Proof.
  assert (Hne : [3; - 2] <> (@nil R)) by discriminate.
  split; [exact Hne|].
  exact (proj1 (proj2 C9_backward_sums_to_one) _ Hne).
Defined.




(** * Further properties of the catalogue *)

(** ** SumTo1 *)

Lemma SumTo1_backward_forward_snoc (x0 : list R) (xl : R) :
  SumTo1_backward (SumTo1_forward (x0 ++ [xl])) = x0 ++ [xl]
  <-> vsum (x0 ++ [xl]) = 1.
Proof.
  unfold SumTo1_forward, SumTo1_backward.
  rewrite removelast_last, vsum_app.
  assert (Hl : vsum [xl] = xl) by (unfold vsum; simpl; lra).
  rewrite Hl. split.
  - intros E. apply app_inj_tail in E. destruct E as [_ E]. lra.
  - intros E. apply snoc_eq. lra.
Qed.

(** X1.  [SumTo1.forward] undoes [SumTo1.backward] on every vector: the
    appended coordinate is dropped again. *)
Theorem X1_SumTo1_forward_backward :
  forall y : list R, SumTo1_forward (SumTo1_backward y) = y.
Proof.
  intros y. unfold SumTo1_forward, SumTo1_backward. apply removelast_last.
Qed.

(** X2.  On a non-empty vector, [SumTo1.backward] undoes [SumTo1.forward]
    exactly when the entries sum to one; on the empty vector the composition
    returns [[1]]. *)
Theorem X2_SumTo1_backward_forward :
  (forall x : list R, x <> [] ->
     (SumTo1_backward (SumTo1_forward x) = x <-> vsum x = 1))
  /\ SumTo1_backward (SumTo1_forward []) = [1].
Proof.
  split.
  - intros x Hx. rewrite (app_removelast_last 0 Hx).
    apply SumTo1_backward_forward_snoc.
  - unfold SumTo1_backward, SumTo1_forward, vsum. simpl.
    apply cons_eq. lra.
Qed.

Lemma X2_SumTo1_backward_forward_witness :
  [1 / 4; 3 / 4] <> []
  /\ (SumTo1_backward (SumTo1_forward [1 / 4; 3 / 4]) = [1 / 4; 3 / 4]
      <-> vsum [1 / 4; 3 / 4] = 1).
Proof.
  assert (Hne : [1 / 4; 3 / 4] <> (@nil R)) by discriminate.
  split; [exact Hne|].
  exact (proj1 X2_SumTo1_backward_forward _ Hne).
Defined.

(** X3.  [SumTo1.backward y] has one more coordinate than [y], and it lies on
    the simplex exactly when the entries of [y] are nonnegative and sum to at
    most one. *)
Theorem X3_SumTo1_backward_simplex :
  forall y : list R,
    length (SumTo1_backward y) = S (length y)
    /\ (simplex (SumTo1_backward y)
        <-> Forall (fun r => 0 <= r) y /\ vsum y <= 1).
Proof.
  intros y. unfold SumTo1_backward. split.
  - rewrite length_app. simpl. lia.
  - unfold simplex. rewrite Forall_app. split.
    + intros [[Hy Hl] _]. apply Forall_inv in Hl. split; [exact Hy|lra].
    + intros [Hy Hs]. split.
      * split; [exact Hy|]. constructor; [lra|constructor].
      * apply (SumTo1_backward_sum y).
Qed.

(** ** StickBreaking: range and failure *)

Lemma sb_back_pos (acc : R) (z : list R) :
  0 < acc -> Forall (fun a => 0 < a < 1) z ->
  Forall (fun r => 0 < r) (sb_back acc z).
Proof.
  intros Hacc Hz. revert acc Hacc.
  induction Hz as [|a z Ha _ IH]; intros acc Hacc; simpl.
  - constructor; [exact Hacc|constructor].
  - constructor; [nra|]. apply IH. nra.
Qed.

Lemma sb_back_length (acc : R) (z : list R) :
  length (sb_back acc z) = S (length z).
Proof.
  revert acc. induction z as [|a z IH]; intros acc; simpl; [reflexivity|].
  now rewrite IH.
Qed.

Lemma Forall_map_sigmoid (w : list R) :
  Forall (fun a => 0 < a < 1) (map inverse_logit w).
Proof.
  apply Forall_forall. intros r Hr. apply in_map_iff in Hr.
  destruct Hr as [t [<- _]]. unfold inverse_logit.
  split; [apply sigmoid_pos|apply sigmoid_lt_1].
Qed.

(** X4.  For every non-empty [y], [StickBreaking.backward y] has one more
    coordinate than [y] and lies on the simplex: its coordinates are
    nonnegative and they sum to one. *)
Theorem X4_StickBreaking_backward_simplex :
  forall y : list R, y <> [] ->
    length (StickBreaking_backward y) = S (length y)
    /\ simplex (StickBreaking_backward y).
Proof.
  intros y Hy. rewrite (StickBreaking_backward_nonempty y Hy).
  split.
  - rewrite sb_back_length, length_map, zipWith_length; [reflexivity|].
    now rewrite eq_share_length.
  - split; [|apply sb_back_sum].
    eapply Forall_impl; [|apply sb_back_pos; [lra|apply Forall_map_sigmoid]].
    simpl. intros r Hr. lra.
Qed.

Lemma X4_StickBreaking_backward_simplex_witness :
  [1; - 1; 0] <> []
  /\ length (StickBreaking_backward [1; - 1; 0]) = S (length [1; - 1; 0])
  /\ simplex (StickBreaking_backward [1; - 1; 0]).
Proof.
  assert (Hne : [1; - 1; 0] <> (@nil R)) by discriminate.
  split; [exact Hne|].
  exact (X4_StickBreaking_backward_simplex _ Hne).
Defined.

(** X5.  [StickBreaking.forward] fails on the empty vector only, and a result
    has one coordinate less than the argument. *)
Theorem X5_StickBreaking_forward_defined :
  forall x : list R,
    (StickBreaking_forward x = None <-> x = [])
    /\ (forall y, StickBreaking_forward x = Some y ->
                  length y = (length x - 1)%nat).
Proof.
  intros x. destruct x as [|c l].
  - split; [split; reflexivity|]. intros y H. discriminate H.
  - assert (Hne : c :: l <> []) by discriminate.
    rewrite (app_removelast_last 0 Hne).
    set (x0 := removelast (c :: l)). set (xl := last (c :: l) 0).
    rewrite StickBreaking_forward_snoc. split.
    + split; [discriminate|]. intros E. destruct x0; discriminate E.
    + intros y E. injection E as <-.
      rewrite length_app. simpl length. rewrite Nat.add_sub.
      assert (Hz : length (zipWith Rdiv x0 (map (fun c => c + xl) (rsum x0)))
                   = length x0).
      { apply zipWith_length. now rewrite length_map, rsum_length. }
      rewrite zipWith_length; rewrite length_map, Hz; [reflexivity|].
      now rewrite eq_share_length.
Qed.

(** ** StickBreaking: normalisation and scale *)

Lemma sb_back_scale (c acc : R) (z : list R) :
  sb_back (c * acc) z = map (Rmult c) (sb_back acc z).
Proof.
  revert acc. induction z as [|a z IH]; intros acc; simpl; [reflexivity|].
  rewrite <- IH. rewrite !Rmult_assoc. reflexivity.
Qed.

Lemma StickBreaking_backward_forward_snoc (x0 : list R) (xl : R) :
  x0 <> [] -> Forall (fun r => 0 < r) x0 -> 0 < xl ->
  exists y, StickBreaking_forward (x0 ++ [xl]) = Some y
            /\ StickBreaking_backward y
               = map (fun r => r / vsum (x0 ++ [xl])) (x0 ++ [xl]).
Proof.
  intros Hne Hpos Hl.
  pose proof (vsum_pos_nonneg x0 Hpos) as Hs.
  assert (HT : vsum (x0 ++ [xl]) = vsum x0 + xl).
  { rewrite vsum_app. unfold vsum; simpl. lra. }
  rewrite HT, StickBreaking_forward_snoc.
  set (e := map (fun k => - ln (INR (length x0 - k))) (arange (length x0))).
  assert (He : length e = length x0) by apply eq_share_length.
  set (z := zipWith Rdiv x0 (map (fun c => c + xl) (rsum x0))).
  assert (Hz : length z = length x0).
  { unfold z. apply zipWith_length. now rewrite length_map, rsum_length. }
  assert (Hy : length (zipWith Rminus (map logit z) e) = length x0).
  { rewrite zipWith_length; rewrite length_map; congruence. }
  eexists. split; [reflexivity|].
  rewrite StickBreaking_backward_nonempty.
  2:{ intros E. rewrite E in Hy. destruct x0; [congruence|discriminate Hy]. }
  rewrite Hy. fold e.
  rewrite zipWith_plus_minus by (rewrite length_map; congruence).
  rewrite map_map.
  rewrite (map_id_on (fun r => 0 < r < 1));
    [|intros r Hr; now apply sigmoid_logit|now apply fractions_in_unit].
  replace 1 with (/ (vsum x0 + xl) * (vsum x0 + xl)) at 1 by (field; lra).
  rewrite sb_back_scale. unfold z.
  rewrite (backward_fractions x0 xl (vsum x0 + xl) Hpos Hl eq_refl).
  apply map_ext. intros r. unfold Rdiv. ring.
Qed.

(** X6.  On a vector of at least two positive coordinates,
    [StickBreaking.backward] after [StickBreaking.forward] divides every
    coordinate by their sum: the composition normalises onto the simplex. *)
Theorem X6_StickBreaking_normalises :
  forall x : list R,
    Forall (fun r => 0 < r) x -> (2 <= length x)%nat ->
    exists y, StickBreaking_forward x = Some y
              /\ StickBreaking_backward y = map (fun r => r / vsum x) x.
Proof.
  intros x Hpos Hlen.
  assert (Hne : x <> []) by (destruct x; simpl in Hlen; [lia|discriminate]).
  pose proof (app_removelast_last 0 Hne) as Hx.
  rewrite Hx in Hpos, Hlen |- *.
  apply Forall_app in Hpos. destruct Hpos as [Hpos0 Hposl].
  apply Forall_inv in Hposl.
  apply StickBreaking_backward_forward_snoc; try assumption.
  rewrite length_app in Hlen. simpl in Hlen.
  intros E. rewrite E in Hlen. simpl in Hlen. lia.
Qed.

Lemma X6_StickBreaking_normalises_witness :
  Forall (fun r => 0 < r) [2; 6] /\ (2 <= length [2; 6])%nat
  /\ exists y, StickBreaking_forward [2; 6] = Some y
               /\ StickBreaking_backward y = map (fun r => r / vsum [2; 6]) [2; 6].
Proof.
  assert (Hpos : Forall (fun r => 0 < r) [2; 6]) by (repeat constructor; lra).
  assert (Hlen : (2 <= length [2; 6])%nat) by (simpl; lia).
  split; [exact Hpos|]. split; [exact Hlen|].
  exact (X6_StickBreaking_normalises _ Hpos Hlen).
Defined.

Lemma vsum_scale (c : R) (l : list R) : vsum (map (Rmult c) l) = c * vsum l.
Proof.
  unfold vsum. induction l as [|a l IH]; simpl; [lra|]. rewrite IH. lra.
Qed.

Lemma fractions_scale (c xl : R) (x0 : list R) :
  0 < c -> Forall (fun r => 0 < r) x0 -> 0 < xl ->
  zipWith Rdiv (map (Rmult c) x0)
          (map (fun s => s + c * xl) (rsum (map (Rmult c) x0)))
  = zipWith Rdiv x0 (map (fun s => s + xl) (rsum x0)).
Proof.
  intros Hc Hpos Hl. induction Hpos as [|a x0 Ha Hpos IH]; simpl; [reflexivity|].
  pose proof (vsum_pos_nonneg x0 Hpos) as Hs.
  rewrite IH, vsum_scale. apply cons_eq.
  assert (Hd : 0 < a + vsum x0 + xl) by lra.
  assert (Hd' : 0 < c * a + c * vsum x0 + c * xl) by nra.
  field. split; lra.
Qed.

(** X7.  [StickBreaking.forward] does not see the scale of a positive vector:
    multiplying all coordinates by a positive constant leaves its result
    unchanged. *)
Theorem X7_StickBreaking_forward_scale :
  forall (c : R) (x : list R),
    0 < c -> Forall (fun r => 0 < r) x ->
    StickBreaking_forward (map (Rmult c) x) = StickBreaking_forward x.
Proof.
  intros c x Hc Hpos. destruct x as [|a l]; [reflexivity|].
  assert (Hne : a :: l <> []) by discriminate.
  pose proof (app_removelast_last 0 Hne) as Hx.
  rewrite Hx in Hpos |- *.
  apply Forall_app in Hpos. destruct Hpos as [Hpos0 Hposl].
  apply Forall_inv in Hposl.
  rewrite map_app. simpl map.
  rewrite !StickBreaking_forward_snoc, length_map.
  now rewrite fractions_scale.
Qed.

Lemma X7_StickBreaking_forward_scale_witness :
  0 < 5 /\ Forall (fun r => 0 < r) [1; 2; 3]
  /\ StickBreaking_forward (map (Rmult 5) [1; 2; 3])
     = StickBreaking_forward [1; 2; 3].
Proof.
  assert (Hc : 0 < 5) by lra.
  assert (Hpos : Forall (fun r => 0 < r) [1; 2; 3]) by (repeat constructor; lra).
  split; [exact Hc|]. split; [exact Hpos|].
  exact (X7_StickBreaking_forward_scale 5 _ Hc Hpos).
Defined.

(** ** StickBreaking: the offset [eq_share] *)

Lemma INR_pos_of_lt (n k : nat) : (k < n)%nat -> 0 < INR (n - k).
Proof. intros H. apply lt_0_INR. lia. Qed.

Lemma eq_share_logit (n k : nat) :
  (k < n)%nat -> - ln (INR (n - k)) = logit (1 / INR (n + 1 - k)).
Proof.
  intros Hk. pose proof (INR_pos_of_lt n k Hk) as Hm.
  replace (n + 1 - k)%nat with (S (n - k)) by lia.
  rewrite S_INR. unfold logit.
  replace (1 / (INR (n - k) + 1) / (1 - 1 / (INR (n - k) + 1)))
    with (/ INR (n - k)) by (field; split; lra).
  now rewrite ln_Rinv.
Qed.

(** X8.  The offsets [- log (Km1 - k)] used by the three [StickBreaking]
    methods are the log-odds of [1 / (Km1 + 1 - k)], as the comment beside
    them says. *)
Theorem X8_eq_share_is_logit :
  forall Km1 : nat,
    map (fun k => - ln (INR (Km1 - k))) (arange Km1)
    = map (fun k => logit (1 / INR (Km1 + 1 - k))) (arange Km1).
Proof.
  intros Km1. apply map_ext_in. intros k Hk.
  apply in_seq in Hk. apply eq_share_logit. lia.
Qed.

Lemma sigmoid_eq_share (n k : nat) :
  (k < n)%nat ->
  inverse_logit (0 + - ln (INR (n - k))) = 1 / (INR (n - k) + 1).
Proof.
  intros Hk. pose proof (INR_pos_of_lt n k Hk) as Hm.
  unfold inverse_logit, sigmoid.
  replace (- (0 + - ln (INR (n - k)))) with (ln (INR (n - k))) by lra.
  rewrite exp_ln by exact Hm. field. lra.
Qed.

Lemma uniform_fractions_S (n : nat) :
  map (fun k => 1 / (INR (S n - k) + 1)) (seq 0 (S n))
  = 1 / (INR (S n) + 1) :: map (fun k => 1 / (INR (n - k) + 1)) (seq 0 n).
Proof.
  simpl seq. simpl map. f_equal.
  rewrite <- seq_shift, map_map. reflexivity.
Qed.

Lemma zipWith_seq_len (f : R -> R -> R) (g : nat -> R) (y : list R) (n : nat) :
  length y = n ->
  zipWith f y (map g (seq 0 n)) = map (fun k => f (nth k y 0) (g k)) (seq 0 n).
Proof.
  intros <-. rewrite zipWith_seq. apply map_ext.
  intros k. now rewrite Nat.sub_0_r.
Qed.

Lemma sb_back_uniform (n : nat) (acc : R) :
  sb_back acc (map (fun k => 1 / (INR (n - k) + 1)) (seq 0 n))
  = repeat (acc / (INR n + 1)) (S n).
Proof.
  revert acc. induction n as [|n IH]; intros acc.
  - simpl. apply cons_eq. field.
  - rewrite uniform_fractions_S. cbn [sb_back].
    pose proof (pos_INR n) as Hn. rewrite IH, S_INR.
    replace (acc * (1 - 1 / (INR n + 1 + 1)) / (INR n + 1))
      with (acc / (INR n + 1 + 1)) by (field; lra).
    change (repeat (acc / (INR n + 1 + 1)) (S (S n)))
      with (acc / (INR n + 1 + 1) :: repeat (acc / (INR n + 1 + 1)) (S n)).
    apply cons_eq. field. lra.
Qed.

(** X9.  The offsets centre the transform: for [n >= 1],
    [StickBreaking.backward] maps the zero vector of length [n] to the
    uniform point [1 / (n + 1)] of the simplex, and [StickBreaking.forward]
    maps that point back to the zero vector. *)
Theorem X9_StickBreaking_uniform_centre :
  forall n : nat, (1 <= n)%nat ->
    StickBreaking_backward (repeat 0 n) = repeat (1 / INR (S n)) (S n)
    /\ StickBreaking_forward (repeat (1 / INR (S n)) (S n)) = Some (repeat 0 n).
Proof.
  intros n Hn.
  assert (Hne : repeat 0 n <> []) by (destruct n; [lia|discriminate]).
  assert (Hb : StickBreaking_backward (repeat 0 n) = repeat (1 / INR (S n)) (S n)).
  { rewrite (StickBreaking_backward_nonempty _ Hne).
    rewrite repeat_length. unfold arange.
    rewrite (zipWith_seq_len _ _ _ n (repeat_length 0 n)), map_map.
    rewrite (map_ext_in _ (fun k => 1 / (INR (n - k) + 1))).
    - rewrite sb_back_uniform, S_INR. reflexivity.
    - intros k Hk. apply in_seq in Hk. rewrite nth_repeat.
      apply sigmoid_eq_share. lia. }
  split; [exact Hb|].
  rewrite <- Hb. now apply StickBreaking_forward_backward.
Qed.

Lemma X9_StickBreaking_uniform_centre_witness :
  (1 <= 3)%nat
  /\ StickBreaking_backward (repeat 0 3) = repeat (1 / INR 4) 4
  /\ StickBreaking_forward (repeat (1 / INR 4) 4) = Some (repeat 0 3).
Proof.
  assert (H : (1 <= 3)%nat) by lia.
  split; [exact H|].
  exact (X9_StickBreaking_uniform_centre 3 H).
Defined.

(** ** StickBreaking with two coordinates and LogOdds *)

(** X10.  With two coordinates, stick breaking is the log-odds transform of
    the first coordinate: [StickBreaking.backward [y]] is
    [[sigmoid y; 1 - sigmoid y]], where [sigmoid y] is [LogOdds.backward y],
    and [StickBreaking.jacobian_det [y]] is
    [- log1p (exp y) - log1p (exp (- y))]. *)
Theorem X10_StickBreaking_two_is_LogOdds :
  forall y : R,
    StickBreaking_backward [y] = [sigmoid y; 1 - sigmoid y]
    /\ LogOdds_backward (scalar y) = scalar (sigmoid y)
    /\ StickBreaking_jacobian_det [y]
       = scalar (- log1p (exp y) - log1p (exp (- y))).
Proof.
  intros y.
  assert (Hy : y + - ln (INR 1) = y) by (simpl; rewrite ln_1; lra).
  split; [|split].
  - rewrite StickBreaking_backward_cons. cbn [length arange seq map zipWith Nat.sub].
    rewrite Hy. unfold inverse_logit. cbn [map sb_back].
    apply f_equal2; [lra|]. apply cons_eq. lra.
  - reflexivity.
  - unfold StickBreaking_jacobian_det.
    cbn [length arange seq map zipWith Nat.sub firstn ones repeat app cumprod
         cum removelast].
    rewrite Hy. f_equal. unfold vsum. cbn [fold_right]. rewrite ln_1. lra.
Qed.

(** ** Interval *)

Lemma Interval_jacobian_det_closed (a b : R) (y : tensor) :
  Interval_jacobian_det a b y
  = tmap (fun t => ln (Rabs ((b - a) * (sigmoid t * (1 - sigmoid t))))) y.
Proof.
  unfold Interval_jacobian_det.
  apply (ElemwiseTransform_jacobian_det_elemwise
           (fun x => (b - a) * exp x / (1 + exp x) + a)
           (fun t => (b - a) * (sigmoid t * (1 - sigmoid t)))).
  apply tt_all_forall. intros t. apply derivable_pt_lim_Interval.
Qed.

(** X11.  [Interval 0 1] is [LogOdds]: the two transforms have the same
    [forward], the same [backward] and the same default Jacobian. *)
Theorem X11_Interval_0_1_is_LogOdds :
  (forall x, Interval_forward 0 1 x = LogOdds_forward x)
  /\ (forall y, Interval_backward 0 1 y = LogOdds_backward y)
  /\ (forall y, Interval_jacobian_det 0 1 y = LogOdds_jacobian_det y).
Proof.
  split; [|split].
  - intros x. unfold Interval_forward, LogOdds_forward. apply tmap_ext.
    intros r. unfold logit. now replace (r - 0) with r by lra.
  - intros y. unfold Interval_backward, LogOdds_backward, inverse_logit.
    apply tmap_ext. intros r. rewrite Interval_backward_elem. lra.
  - intros y. rewrite Interval_jacobian_det_closed.
    unfold LogOdds_jacobian_det.
    rewrite (ElemwiseTransform_jacobian_det_elemwise inverse_logit
               (fun t => sigmoid t * (1 - sigmoid t))).
    + apply tmap_ext. intros t. f_equal. f_equal. lra.
    + apply tt_all_forall. exact derivable_pt_lim_sigmoid.
Qed.

(** X12.  For [a < b], [Interval a b] sends the midpoint of the interval to
    [0] and [0] back to the midpoint. *)
Theorem X12_Interval_midpoint :
  forall a b : R, a < b ->
    Interval_forward a b (scalar ((a + b) / 2)) = scalar 0
    /\ Interval_backward a b (scalar 0) = scalar ((a + b) / 2).
Proof.
  intros a b Hab. unfold Interval_forward, Interval_backward. simpl. split.
  - f_equal.
    replace (((a + b) / 2 - a) / (b - (a + b) / 2)) with 1 by (field; lra).
    apply ln_1.
  - f_equal. rewrite exp_0. field.
Qed.

Lemma X12_Interval_midpoint_witness :
  0 < 1
  /\ Interval_forward 0 1 (scalar ((0 + 1) / 2)) = scalar 0
  /\ Interval_backward 0 1 (scalar 0) = scalar ((0 + 1) / 2).
Proof.
  assert (H : 0 < 1) by lra.
  split; [exact H|]. exact (X12_Interval_midpoint 0 1 H).
Defined.




(** X14.  With the bounds exchanged, [Interval.backward] is the same map
    read in the opposite direction; with equal bounds it is constant, so
    [forward] cannot undo it. *)
Theorem X14_Interval_backward_bounds :
  (forall a b y,
      Interval_backward b a y = Interval_backward a b (tmap Ropp y))
  /\ (forall a y, Interval_backward a a y = tmap (fun _ => a) y).
Proof.
  split.
  - intros a b y. unfold Interval_backward. rewrite tmap_tmap.
    apply tmap_ext. intros r. rewrite !Interval_backward_elem.
    pose proof (one_minus_sigmoid r) as H1.
    rewrite (sigmoid_exp (- r)), exp_Ropp.
    rewrite sigmoid_exp. pose proof (exp_pos r). field. split; lra.
  - intros a y. unfold Interval_backward. apply tmap_ext.
    intros r. rewrite Interval_backward_elem. ring.
Qed.

(** ** The default Jacobian and the transformed log-density *)

(** X15.  Whatever the [backward] map, the default Jacobian has the shape of
    its argument. *)
Theorem X15_default_jacobian_shape :
  forall (bw : tensor -> tensor) (x : tensor),
    tt_shape (ElemwiseTransform_jacobian_det bw x) = tt_shape x.
Proof.
  intros bw x. unfold ElemwiseTransform_jacobian_det.
  destruct x as [r|v]; [reflexivity|].
  unfold tt_log, tt_abs_. cbn [tt_shape tt_reshape tmap].
  rewrite !length_map, gradient_length. reflexivity.
Qed.

Lemma tt_add_0_r (t : tensor) : tt_add t (scalar 0) = t.
Proof.
  destruct t as [r|v]; unfold tt_add; simpl.
  - f_equal. lra.
  - f_equal. apply map_id_on with (P := fun _ => True).
    + intros r _. lra.
    + apply Forall_forall. intros; exact I.
Qed.

(** X16.  The log-density of a distribution transformed by [sum_to_1] is the
    base log-density at [backward y], with nothing added; transformed by
    [log] it is the base log-density at [exp y] plus [log (abs (exp y))];
    transformed by [logodds] it is the base log-density at [sigmoid y] plus
    [log (abs (sigmoid y * (1 - sigmoid y)))]. *)
Theorem X16_logp_of_catalogue :
  (forall (d : Distribution (list R)) (y : list R),
      TransformedDistribution_logp (Transform_apply sum_to_1 d) y
      = logp d (y ++ [1 - vsum y]))
  /\ (forall (d : Distribution tensor) (y : tensor),
        TransformedDistribution_logp (Transform_apply log d) y
        = tt_add (logp d (tt_exp y)) (tt_log (tt_abs_ (tt_exp y))))
  /\ (forall (d : Distribution tensor) (y : tensor),
        TransformedDistribution_logp (Transform_apply logodds d) y
        = tt_add (logp d (tmap sigmoid y))
                 (tmap (fun t => ln (Rabs (sigmoid t * (1 - sigmoid t)))) y)).
Proof.
  split; [|split].
  - intros d y. unfold TransformedDistribution_logp. simpl.
    unfold SumTo1_jacobian_det. apply tt_add_0_r.
  - intros d y. unfold TransformedDistribution_logp. simpl. f_equal.
    unfold Log_jacobian_det. change Log_backward with (tmap exp).
    rewrite (ElemwiseTransform_jacobian_det_elemwise exp exp).
    + unfold tt_log, tt_abs_, tt_exp. now rewrite !tmap_tmap.
    + apply tt_all_forall. exact derivable_pt_lim_exp.
  - intros d y. unfold TransformedDistribution_logp. simpl. f_equal.
    unfold LogOdds_jacobian_det.
    apply (ElemwiseTransform_jacobian_det_elemwise inverse_logit
             (fun t => sigmoid t * (1 - sigmoid t))).
    apply tt_all_forall. exact derivable_pt_lim_sigmoid.
Qed.

(** ** Circular *)


(** X17.  [Circular.backward] keeps the angle: the sine and the cosine of
    every entry are unchanged. *)
Theorem X17_Circular_backward_same_angle :
  forall y : tensor,
    tmap sin (Circular_backward y) = tmap sin y
    /\ tmap cos (Circular_backward y) = tmap cos y.
Proof.
  intros y. unfold Circular_backward. rewrite !tmap_tmap.
  split; apply tmap_ext; intros r; apply sin_cos_arctan2.
Qed.

(** X18.  [Circular.backward] has period [2 * PI], and applying it twice is
    the same as applying it once. *)
Theorem X18_Circular_backward_periodic_idempotent :
  forall y : tensor,
    Circular_backward (tmap (fun r => r + 2 * PI) y) = Circular_backward y
    /\ Circular_backward (Circular_backward y) = Circular_backward y.
Proof.
  intros y. split.
  - unfold Circular_backward. rewrite tmap_tmap. apply tmap_ext.
    intros r. now rewrite sin_2PI_shift, cos_2PI_shift.
  - apply (Circular_backward_forward (Circular_backward y)).
    apply Circular_backward_range.
Qed.

Lemma derivable_pt_lim_local (f g : R -> R) (a l d : R) :
  0 < d -> (forall t, Rabs (t - a) < d -> f t = g t) ->
  derivable_pt_lim f a l -> derivable_pt_lim g a l.
Proof.
  intros Hd Hfg Hf eps Heps. destruct (Hf eps Heps) as [delta Hdelta].
  assert (Hm : 0 < Rmin delta d) by (apply Rmin_pos; [apply cond_pos|exact Hd]).
  exists (mkposreal (Rmin delta d) Hm). simpl. intros h Hh0 Hh.
  rewrite <- (Hfg (a + h)), <- (Hfg a).
  - apply Hdelta; [exact Hh0|].
    apply Rlt_le_trans with (Rmin delta d); [exact Hh|apply Rmin_l].
  - replace (a - a) with 0 by lra. now rewrite Rabs_R0.
  - replace (a + h - a) with h by lra.
    apply Rlt_le_trans with (Rmin delta d); [exact Hh|apply Rmin_r].
Qed.

Lemma derivable_pt_lim_wrap (y : R) :
  - PI < y < PI ->
  derivable_pt_lim (fun y => arctan2 (sin y) (cos y)) y 1.
Proof.
  intros [Hlo Hhi].
  apply derivable_pt_lim_local with (f := id) (d := Rmin (PI - y) (y + PI)).
  - apply Rmin_pos; lra.
  - intros t Ht. unfold id. symmetry. apply arctan2_sin_cos.
    pose proof (Rmin_l (PI - y) (y + PI)). pose proof (Rmin_r (PI - y) (y + PI)).
    apply Rabs_def2 in Ht. lra.
  - apply derivable_pt_lim_id.
Qed.

(** X19.  On angles strictly between [- PI] and [PI] the default Jacobian of
    [Circular] is [0]: the wrap is the identity there and adds nothing to a
    log-density. *)
Theorem X19_Circular_jacobian_zero :
  forall y : tensor,
    tt_all (fun r => - PI < r < PI) y ->
    Circular_jacobian_det y = tmap (fun _ => 0) y.
Proof.
  intros y Hy. unfold Circular_jacobian_det.
  rewrite (ElemwiseTransform_jacobian_det_elemwise
             (fun y => arctan2 (sin y) (cos y)) (fun _ => 1)).
  - apply tmap_ext. intros _. rewrite Rabs_R1. apply ln_1.
  - destruct y as [r|v]; simpl in *.
    + now apply derivable_pt_lim_wrap.
    + apply Forall_forall. intros r Hr. apply derivable_pt_lim_wrap.
      rewrite Forall_forall in Hy. now apply Hy.
Qed.

Lemma X19_Circular_jacobian_zero_witness :
  tt_all (fun r => - PI < r < PI) (vector [0; PI / 2])
  /\ Circular_jacobian_det (vector [0; PI / 2]) = tmap (fun _ => 0) (vector [0; PI / 2]).
Proof.
  assert (H : tt_all (fun r => - PI < r < PI) (vector [0; PI / 2])).
  { pose proof PI_RGT_0. simpl. repeat constructor; lra. }
  split; [exact H|]. exact (X19_Circular_jacobian_zero _ H).
Defined.

(** ** The initial value of a transformed distribution *)

(** X20.  The initial value computed at construction is [forward] of the
    default of the base distribution, and [backward] takes it back to that
    default: for [log] when the default is positive, for [logodds] when it is
    in [(0, 1)], for [interval a b] with [a < b] when it is in [(a, b)], for
    [sum_to_1] when it is non-empty and sums to one, and for
    [stick_breaking] when it is an interior point of the simplex with at
    least two coordinates. *)
Theorem X20_testval_round_trip :
  (forall d : Distribution tensor,
      tt_all (fun r => 0 < r) (default d) ->
      exists t, testval (TransformedDistribution_init d log) = Some t
                /\ backward log t = default d)
  /\ (forall d : Distribution tensor,
        tt_all (fun r => 0 < r < 1) (default d) ->
        exists t, testval (TransformedDistribution_init d logodds) = Some t
                  /\ backward logodds t = default d)
  /\ (forall (a b : R) (d : Distribution tensor),
        a < b -> tt_all (fun r => a < r < b) (default d) ->
        exists t, testval (TransformedDistribution_init d (interval a b)) = Some t
                  /\ backward (interval a b) t = default d)
  /\ (forall d : Distribution (list R),
        default d <> [] -> vsum (default d) = 1 ->
        exists t, testval (TransformedDistribution_init d sum_to_1) = Some t
                  /\ backward sum_to_1 t = default d)
  /\ (forall d : Distribution (list R),
        simplex_interior (default d) -> (2 <= length (default d))%nat ->
        exists t, testval (TransformedDistribution_init d stick_breaking) = Some t
                  /\ backward stick_breaking t = default d).
Proof.
  split; [|split; [|split; [|split]]].
  - intros d Hd. eexists. split; [reflexivity|].
    now apply Log_backward_forward.
  - intros d Hd. eexists. split; [reflexivity|].
    now apply LogOdds_backward_forward.
  - intros a b d Hab Hd. eexists. split; [reflexivity|].
    now apply Interval_backward_forward.
  - intros d Hne Hs. eexists. split; [reflexivity|]. simpl.
    rewrite (app_removelast_last 0 Hne) in Hs |- *.
    now apply SumTo1_backward_forward_snoc.
  - intros d Hd Hlen.
    destruct (StickBreaking_backward_forward _ Hd Hlen) as [y [Hf [_ Hb]]].
    exists y. split; [exact Hf|exact Hb].
Qed.

Lemma X20_testval_round_trip_witness :
  (tt_all (fun r => 0 < r) (default (mkDistribution (scalar 2) (fun x => x)))
   /\ exists t,
        testval (TransformedDistribution_init
                   (mkDistribution (scalar 2) (fun x => x)) log) = Some t
        /\ backward log t = scalar 2)
  /\ (simplex_interior
        (default (mkDistribution [1 / 2; 1 / 2] (fun _ => scalar 0)))
      /\ (2 <= length (default (mkDistribution [1 / 2; 1 / 2]
                                  (fun _ => scalar 0))))%nat
      /\ exists t,
           testval (TransformedDistribution_init
                      (mkDistribution [1 / 2; 1 / 2] (fun _ => scalar 0))
                      stick_breaking) = Some t
           /\ backward stick_breaking t = [1 / 2; 1 / 2]).
Proof.
  destruct X20_testval_round_trip as (HL & _ & _ & _ & HS).
  assert (Hpos : tt_all (fun r => 0 < r)
                   (default (mkDistribution (scalar 2) (fun x => x))))
    by (simpl; lra).
  assert (Hlen : (2 <= length (default (mkDistribution [1 / 2; 1 / 2]
                                          (fun _ => scalar 0))))%nat)
    by (simpl; lia).
  split.
  - split; [exact Hpos|]. exact (HL _ Hpos).
  - split; [exact simplex_interior_halves|]. split; [exact Hlen|].
    exact (HS (mkDistribution [1 / 2; 1 / 2] (fun _ => scalar 0))
              simplex_interior_halves Hlen).
Defined.

(** ** StickBreaking: the sign of the Jacobian *)

Lemma Forall_vsum_neg (l : list R) :
  l <> [] -> Forall (fun r => r < 0) l -> vsum l < 0.
Proof.
  intros Hne H. induction H as [|a l Ha Hl IH]; [congruence|].
  destruct l as [|b l].
  - unfold vsum; simpl. lra.
  - assert (vsum (b :: l) < 0) by (apply IH; discriminate).
    change (vsum (a :: b :: l)) with (a + vsum (b :: l)). lra.
Qed.

Lemma prod_unit_interval (l : list R) :
  Forall (fun r => 0 < r < 1) l ->
  0 < fold_right Rmult 1 l <= 1.
Proof.
  intros H. induction H as [|a l Ha _ IH]; simpl; [lra|]. nra.
Qed.

Lemma spec_S_unit (y : list R) (k : nat) : 0 < spec_S y k <= 1.
Proof.
  unfold spec_S. apply prod_unit_interval.
  apply Forall_forall. intros r Hr. apply in_map_iff in Hr.
  destruct Hr as [j [<- _]].
  pose proof (sigmoid_pos (spec_zprime y j)).
  pose proof (sigmoid_lt_1 (spec_zprime y j)). lra.
Qed.

Lemma ln_one_plus_exp_pos (t : R) : 0 < ln (1 + exp t).
Proof.
  rewrite <- ln_1. apply ln_increasing; [lra|].
  pose proof (exp_pos t). lra.
Qed.

(** X22.  The closed-form Jacobian of [StickBreaking] is [0] on the empty
    vector and strictly negative on every other vector. *)
Theorem X22_StickBreaking_jacobian_negative :
  StickBreaking_jacobian_det [] = scalar 0
  /\ (forall y : list R, y <> [] ->
        exists j, StickBreaking_jacobian_det y = scalar j /\ j < 0).
Proof.
  split; [reflexivity|].
  intros y Hy. rewrite StickBreaking_jacobian_det_spec.
  eexists. split; [reflexivity|].
  unfold spec_StickBreaking_jacobian. apply Forall_vsum_neg.
  - destruct y as [|a l]; [congruence|]. discriminate.
  - apply Forall_forall. intros r Hr. apply in_map_iff in Hr.
    destruct Hr as [k [<- _]].
    pose proof (spec_S_unit y k) as [HS0 HS1].
    pose proof (ln_one_plus_exp_pos (spec_zprime y k)).
    pose proof (ln_one_plus_exp_pos (- spec_zprime y k)).
    assert (ln (spec_S y k) <= 0).
    { destruct HS1 as [HS1|HS1].
      - left. rewrite <- ln_1. now apply ln_increasing.
      - rewrite HS1, ln_1. lra. }
    lra.
Qed.

Lemma X22_StickBreaking_jacobian_negative_witness :
  [0; 1] <> []
  /\ exists j, StickBreaking_jacobian_det [0; 1] = scalar j /\ j < 0.
Proof.
  assert (Hne : [0; 1] <> (@nil R)) by discriminate.
  split; [exact Hne|].
  exact (proj2 X22_StickBreaking_jacobian_negative _ Hne).
Defined.

(** ** Log *)

(** X23.  [Log.backward] never produces a negative entry, and it is monotone
    on rank-0 tensors. *)
Theorem X23_Log_backward_nonnegative_monotone :
  (forall y : tensor, tt_all (fun r => 0 <= r) (Log_backward y))
  /\ (forall y1 y2 r1 r2 : R,
        y1 <= y2 ->
        Log_backward (scalar y1) = scalar r1 ->
        Log_backward (scalar y2) = scalar r2 ->
        r1 <= r2).
Proof.
  split.
  - intros y. unfold Log_backward, tt_exp. apply tt_all_tmap.
    intros r. left. apply exp_pos.
  - intros y1 y2 r1 r2 Hy E1 E2.
    unfold Log_backward, tt_exp in E1, E2. simpl in E1, E2.
    injection E1 as <-. injection E2 as <-. now apply exp_le_mono.
Qed.

Lemma X23_Log_backward_nonnegative_monotone_witness :
  0 <= 1
  /\ Log_backward (scalar 0) = scalar (exp 0)
  /\ Log_backward (scalar 1) = scalar (exp 1)
  /\ exp 0 <= exp 1.
Proof.
  assert (H : 0 <= 1) by lra.
  split; [exact H|]. split; [reflexivity|]. split; [reflexivity|].
  exact (proj2 X23_Log_backward_nonnegative_monotone 0 1 _ _ H eq_refl eq_refl).
Defined.

(** ** Instances at concrete inputs *)

Lemma X5_StickBreaking_forward_defined_witness :
  StickBreaking_forward [1 / 2; 1 / 2]
  = Some (zipWith Rminus
            (map logit (zipWith Rdiv [1 / 2]
                          (map (fun c => c + 1 / 2) (rev (cumsum (rev [1 / 2]))))))
            (map (fun k => - ln (INR (1 - k))) (arange 1)))
  /\ length (zipWith Rminus
               (map logit (zipWith Rdiv [1 / 2]
                             (map (fun c => c + 1 / 2) (rev (cumsum (rev [1 / 2]))))))
               (map (fun k => - ln (INR (1 - k))) (arange 1)))
     = (length [1 / 2; 1 / 2] - 1)%nat.
Proof.
  split; [reflexivity|].
  exact (proj2 (X5_StickBreaking_forward_defined [1 / 2; 1 / 2]) _ eq_refl).
Defined.
